(** * Bilingual alignment and chunking pipeline ([build_chunks.py])

    A shallow embedding of the functions of [build_chunks.py]:
    [detect_language], [align_blocks], [create_bilingual_chunks],
    [process_bilingual_pdfs] and the canonical text of
    [load_cultural_semantics], followed by the properties the
    specification states about them.

    Conventions of the embedding.
    - A Python [str] is the list of its Unicode code points ([N]).
    - A Python [float] is an IEEE 754 binary64 number ([PrimFloat.float]).
    - A Python [int] is a [Z].
    - A call that may raise returns an [outcome]; [try]/[except Exception]
      is [try_except].
    - The libraries the module imports ([langdetect.detect], the text
      splitter, the PDF reader) are parameters of the development. *)

From Stdlib Require Import List Bool Arith NArith ZArith Lia.
From Stdlib Require Import String Ascii DecimalString.
From Stdlib Require Import Floats.PrimFloat.
From Stdlib Require Import Sorting.Permutation Sorting.Sorted.
From Stdlib Require Floats.SpecFloat Floats.FloatOps Floats.FloatAxioms.
From Stdlib Require DecimalNat DecimalFacts FinFun.
Import ListNotations.

(** ** Python strings *)

Definition char : Type := N.
Definition str : Type := list char.

(** An ASCII literal of the source, as a [str]. *)
Definition lit (s : string) : str := map N_of_ascii (list_ascii_of_string s).

Definition str_eq_dec : forall a b : str, {a = b} + {a <> b} :=
  list_eq_dec N.eq_dec.

(** [s.startswith(p)] *)
Fixpoint startswith (s p : str) {struct p} : bool :=
  match p, s with
  | [], _ => true
  | _ :: _, [] => false
  | c :: p', d :: s' => N.eqb c d && startswith s' p'
  end.

(** [sub in s] *)
Fixpoint contains (s sub : str) : bool :=
  startswith s sub ||
  match s with
  | [] => false
  | _ :: s' => contains s' sub
  end.

(** [sep.join(parts)] *)
Fixpoint join (sep : str) (parts : list str) : str :=
  match parts with
  | [] => []
  | [p] => p
  | p :: rest => p ++ sep ++ join sep rest
  end.

(** The characters [str.strip()] removes: those for which [str.isspace]
    holds. *)
Definition is_space (c : char) : bool :=
  ((9 <=? c) && (c <=? 13) || (28 <=? c) && (c <=? 32)
   || (c =? 133) || (c =? 160) || (c =? 5760)
   || (8192 <=? c) && (c <=? 8202)
   || (c =? 8232) || (c =? 8233) || (c =? 8239) || (c =? 8287)
   || (c =? 12288))%N.

Fixpoint lstrip (s : str) : str :=
  match s with
  | [] => []
  | c :: s' => if is_space c then lstrip s' else s
  end.

Definition rstrip (s : str) : str := rev (lstrip (rev s)).

(** [s.strip()] *)
Definition strip (s : str) : str := rstrip (lstrip s).

(** [str(i)] for a non-negative [int]. *)
Definition str_of_nat (i : nat) : str :=
  lit (NilZero.string_of_uint (Nat.to_uint i)).

(** ** Exceptions *)

Inductive exn : Type := Exception (name : string).

Inductive outcome (A : Type) : Type :=
| Returns (a : A)
| Raises (e : exn).

Arguments Returns {A} a.
Arguments Raises {A} e.

Definition bind {A B : Type} (m : outcome A) (k : A -> outcome B) : outcome B :=
  match m with
  | Returns a => k a
  | Raises e => Raises e
  end.

(** [try: body  except Exception: handler] *)
Definition try_except {A : Type} (body : outcome A) (handler : exn -> outcome A)
  : outcome A :=
  match body with
  | Returns a => Returns a
  | Raises e => handler e
  end.

Notation "x <- m ;; k" := (bind m (fun x => k))
  (at level 61, m at next level, right associativity).

(** ** Records of the pipeline *)

(** One span yielded by [extract_blocks]:
    [{"text", "x0", "y0", "font", "page"}]. *)
Record Span : Type := mkSpan {
  text : str;
  x0 : float;
  y0 : float;
  font : str;
  page : Z
}.

(** The [meta] dictionary of a pair: [{"page_en", "page_hi"}], each a page
    number or [None]. *)
Record Meta : Type := mkMeta {
  page_en : option Z;
  page_hi : option Z
}.

(** A pair is the tuple [(en_text, hi_text, meta)]; an absent side is the
    empty string. *)
Definition Pair : Type := (str * str * Meta)%type.

Definition hi : str := lit "hi".
Definition en : str := lit "en".

(** [re.search(r'[\u0900-\u097F]', text)]: a code point of the Devanagari
    block, U+0900 to U+097F. *)
Definition in_devanagari (c : char) : bool := ((2304 <=? c) && (c <=? 2431))%N.
Definition has_devanagari (s : str) : bool := existsb in_devanagari s.

(** The three tuples [align_blocks] appends. *)
Definition orphan_en (p : Span) : Pair :=
  (text p, [], mkMeta (Some (page p)) None).
Definition orphan_hi (b : Span) : Pair :=
  ([], text b, mkMeta None (Some (page b))).
Definition paired (p b : Span) : Pair :=
  (text p, text b, mkMeta (Some (page p)) (Some (page b))).

(** [abs(b["y0"] - pending_en["y0"]) <= y_tolerance] *)
Definition within_tolerance (b p : Span) (y_tolerance : float) : bool :=
  PrimFloat.leb (PrimFloat.abs (PrimFloat.sub (y0 b) (y0 p))) y_tolerance.

(** The state of the loop of [align_blocks]: [pairs] and [pending_en]. *)
Definition AlignState : Type := (list Pair * option Span)%type.

Definition align_init : AlignState := ([], None).

Section Aligner.

(** [langdetect.detect]: returns a language code or raises. *)
Variable detect : str -> outcome str.

Definition detect_language (t : str) : outcome str :=
  if has_devanagari t then Returns hi
  else
    try_except
      (lang <- detect t ;;
       if startswith lang hi then Returns hi
       else if startswith lang en then Returns en
       else Returns en)
      (fun _ => Returns en).

(** The body of the [for b in blocks] loop. A span dictionary is never
    empty, so [if pending_en] tests that the slot is not [None]. *)
Definition align_step (y_tolerance : float) (st : AlignState) (b : Span)
  : outcome AlignState :=
  let '(pairs, pending_en) := st in
  lang <- detect_language (text b) ;;
  if str_eq_dec lang en then
    let pairs :=
      match pending_en with
      | Some p => pairs ++ [orphan_en p]
      | None => pairs
      end in
    Returns (pairs, Some b)
  else if str_eq_dec lang hi then
    match pending_en with
    | Some p =>
        if Z.eqb (page b) (page p) && within_tolerance b p y_tolerance
        then Returns (pairs ++ [paired p b], None)
        else Returns (pairs ++ [orphan_hi b], pending_en)
    | None => Returns (pairs ++ [orphan_hi b], pending_en)
    end
  else Returns (pairs, pending_en).

Fixpoint align_loop (y_tolerance : float) (st : AlignState) (blocks : list Span)
  : outcome AlignState :=
  match blocks with
  | [] => Returns st
  | b :: rest =>
      st' <- align_step y_tolerance st b ;;
      align_loop y_tolerance st' rest
  end.

(** The flush after the loop: [if pending_en: pairs.append(...)]. *)
Definition align_flush (st : AlignState) : list Pair :=
  match snd st with
  | Some p => fst st ++ [orphan_en p]
  | None => fst st
  end.

Definition align_blocks (blocks : list Span) (y_tolerance : float)
  : outcome (list Pair) :=
  st <- align_loop y_tolerance align_init blocks ;;
  Returns (align_flush st).

End Aligner.

(** The default of [y_tolerance]. *)
Definition default_tolerance : float := 120%float.

(** ** Chunk builder *)

(** A chunk dictionary:
    [{"chunk_id", "source", "language", "alignment_status", "length", "text"}]. *)
Record Chunk : Type := mkChunk {
  chunk_id : str;
  source : str;
  language : str;
  alignment_status : str;
  chunk_length : nat;
  chunk_text : str
}.

Definition newline : str := [10%N].

(** Truth value of a Python string: it is not empty. *)
Definition truthy (s : str) : bool :=
  match s with
  | [] => false
  | _ :: _ => true
  end.

(** The block built for one pair in the first loop of
    [create_bilingual_chunks]; [None] is the [continue]. *)
Definition format_block (p : Pair) : option str :=
  let '(en_t, hi_t, _) := p in
  if negb (truthy en_t) && negb (truthy hi_t) then None
  else
    let block_text := [] in
    let block_text :=
      if truthy en_t then block_text ++ lit "EN: " ++ en_t else block_text in
    let block_text :=
      if truthy hi_t
      then block_text ++ (if truthy block_text then newline else [])
                      ++ lit "HI: " ++ hi_t
      else block_text in
    Some block_text.

Fixpoint formatted_blocks (pairs : list Pair) : list str :=
  match pairs with
  | [] => []
  | p :: rest =>
      match format_block p with
      | Some block_text => block_text :: formatted_blocks rest
      | None => formatted_blocks rest
      end
  end.

(** The dictionary appended for document number [i] of the splitter. *)
Definition make_chunk (source_name : str) (i : nat) (page_content : str) : Chunk :=
  let t := strip page_content in
  let has_en := contains t (lit "EN:") in
  let has_hi := contains t (lit "HI:") in
  mkChunk (source_name ++ lit "_chunk_" ++ str_of_nat i)
          source_name
          (lit "hi-en")
          (if has_en && has_hi then lit "perfect" else lit "partial")
          (List.length t)
          t.

(** [for i, d in enumerate(docs, start=i)]. *)
Fixpoint label_chunks (source_name : str) (i : nat) (docs : list str) : list Chunk :=
  match docs with
  | [] => []
  | d :: rest => make_chunk source_name i d :: label_chunks source_name (S i) rest
  end.

Section ChunkBuilder.

(** [RecursiveCharacterTextSplitter(chunk_size=800, chunk_overlap=100,
    separators=[...]).create_documents], as the list of the
    [page_content] of the documents it returns. *)
Variable create_documents : list str -> list str.

Definition create_bilingual_chunks (pairs : list Pair) (source_name : str)
  : list Chunk :=
  match formatted_blocks pairs with
  | [] => []
  | blocks => label_chunks source_name 1 (create_documents blocks)
  end.

End ChunkBuilder.

(** ** Batch driver *)

(** A path of the bilingual directory, with the two parts the driver uses. *)
Record PdfPath : Type := mkPdfPath {
  name : str;
  stem : str
}.

Section Driver.

Variable detect : str -> outcome str.
Variable create_documents : list str -> list str.

(** [extract_blocks]: opens the file with the PDF reader, which may
    raise, and returns the sorted spans. *)
Variable extract_blocks : PdfPath -> outcome (list Span).

(** The [for pdf_path in pdf_paths] loop, from the current [all_chunks]. *)
Fixpoint process_loop (all_chunks : list Chunk) (pdf_paths : list PdfPath)
  : outcome (list Chunk) :=
  match pdf_paths with
  | [] => Returns all_chunks
  | pdf_path :: rest =>
      let source_name := stem pdf_path in
      blocks <- extract_blocks pdf_path ;;
      pairs <- align_blocks detect blocks default_tolerance ;;
      let chunks := create_bilingual_chunks create_documents pairs source_name in
      process_loop (all_chunks ++ chunks) rest
  end.

(** [listing] is [None] when the bilingual directory does not exist, and
    otherwise the sorted result of the glob. The value is what the
    function returns; the artifacts are written after the loop from the
    same list. *)
Definition process_bilingual_pdfs (listing : option (list PdfPath))
  : outcome (list Chunk) :=
  match listing with
  | None => Returns []
  | Some [] => Returns []
  | Some pdf_paths => process_loop [] pdf_paths
  end.

End Driver.

(** ** Lexicon normalizer *)

(** One entry of the lexicon; [None] is a key the entry does not have. *)
Record Entry : Type := mkEntry {
  expression_native : option str;
  expression_translit : option str;
  literal_translation : option str;
  clinical_meaning : option str;
  cultural_context : option str;
  synonyms_variants : option (list str);
  disambiguation_questions : option (list str)
}.

(** [entry.get(key, default)] *)
Definition get {A : Type} (field : option A) (default : A) : A :=
  match field with
  | Some v => v
  | None => default
  end.

(** [sep.join(items) if items else 'N/A'] *)
Definition join_or_na (sep : str) (items : list str) : str :=
  match items with
  | [] => lit "N/A"
  | _ :: _ => join sep items
  end.

(** The [canonical_text] of the loop of [load_cultural_semantics]. *)
Definition canonical_text (entry : Entry) : str :=
  let native := get (expression_native entry) [] in
  let translit := get (expression_translit entry) [] in
  let literal := get (literal_translation entry) [] in
  let clinical := get (clinical_meaning entry) [] in
  let context := get (cultural_context entry) [] in
  let synonyms := get (synonyms_variants entry) [] in
  let disamb := get (disambiguation_questions entry) [] in
  strip (native ++ lit " (" ++ translit ++ lit ")" ++ newline
         ++ lit "Literal: " ++ literal ++ newline
         ++ lit "Meaning: " ++ clinical ++ newline
         ++ lit "Cultural context: " ++ context ++ newline
         ++ lit "Synonyms/variants: " ++ join_or_na (lit ", ") synonyms ++ newline
         ++ lit "Disambiguation questions: " ++ join_or_na (lit " | ") disamb).

(** ** Observations used in the statements *)

(** [sub] occurs in [s]. *)
Definition is_substring (sub s : str) : Prop :=
  exists pre post, s = pre ++ sub ++ post.

(** A string with a character [strip] keeps. *)
Definition nonblank (s : str) : Prop :=
  exists c, In c s /\ is_space c = false.

(** What identifies a span inside a pair: its text and its page. *)
Definition span_key (b : Span) : str * Z := (text b, page b).

(** The spans recorded on the English side of a list of pairs, in order. *)
Definition en_side (pairs : list Pair) : list (str * Z) :=
  flat_map (fun pr : Pair =>
              let '(e, _, m) := pr in
              match page_en m with
              | Some n => [(e, n)]
              | None => []
              end) pairs.

(** The spans recorded on the Hindi side of a list of pairs, in order. *)
Definition hi_side (pairs : list Pair) : list (str * Z) :=
  flat_map (fun pr : Pair =>
              let '(_, h, m) := pr in
              match page_hi m with
              | Some n => [(h, n)]
              | None => []
              end) pairs.

(** A pair that records a span on both sides. *)
Definition is_paired (pr : Pair) : bool :=
  match page_en (snd pr), page_hi (snd pr) with
  | Some _, Some _ => true
  | _, _ => false
  end.

(** [detect_language] answers [lang] on the text of [b]. *)
Definition classified (detect : str -> outcome str) (lang : str) (b : Span) : bool :=
  match detect_language detect (text b) with
  | Returns l => if str_eq_dec l lang then true else false
  | Raises _ => false
  end.

(** The pending span in [pend] can take the Hindi span [b]. *)
Definition pairable (y_tolerance : float) (pend : option Span) (b : Span) : Prop :=
  exists p, pend = Some p /\ page p = page b /\ within_tolerance b p y_tolerance = true.

(** What the arrival of an English span, or the end of the scan, appends for
    the slot [pend]. *)
Definition flushed (pend : option Span) : list Pair :=
  match pend with
  | Some p => [orphan_en p]
  | None => []
  end.

(** At least one side of the pair has a text. *)
Definition one_side_present (pr : Pair) : Prop :=
  fst (fst pr) <> [] \/ snd (fst pr) <> [].

(** The pages of a pair agree with its texts. *)
Definition pages_consistent (pr : Pair) : Prop :=
  (page_en (snd pr) <> None <-> fst (fst pr) <> []) /\
  (page_hi (snd pr) <> None <-> snd (fst pr) <> []) /\
  (fst (fst pr) <> [] -> snd (fst pr) <> [] -> page_en (snd pr) = page_hi (snd pr)).

(** ** Concrete inputs *)

(** A detector that fails on every text. *)
Definition detect_fails : str -> outcome str :=
  fun _ => Raises (Exception "LangDetectException").

(** A detector that knows two English words. *)
Definition detect_words : str -> outcome str :=
  fun t =>
    if str_eq_dec t (lit "intro") then Returns (lit "en")
    else if str_eq_dec t (lit "follow-up") then Returns (lit "en")
    else Raises (Exception "LangDetectException").

(** The Hindi word of the end-to-end scenario, U+092A U+0930 U+093F U+091A
    U+092F. *)
Definition parichay : str := [2346; 2352; 2367; 2330; 2351]%N.

Definition span_at (t : str) (pg : Z) (y : float) : Span :=
  mkSpan t 0%float y (lit "Helvetica") pg.

(** A splitter that cuts every text before each line break and drops the
    empty pieces. *)
Fixpoint cut_lines (cur : str) (s : str) : list str :=
  match s with
  | [] => [rev cur]
  | c :: s' =>
      if (c =? 10)%N then rev cur :: cut_lines [c] s'
      else cut_lines (c :: cur) s'
  end.

Definition line_splitter (texts : list str) : list str :=
  flat_map (fun t => filter truthy (cut_lines [] t)) texts.

(** A splitter that returns each text as one document. *)
Definition whole_splitter (texts : list str) : list str := texts.

(** The key of the span in the slot, if any. *)
Definition slot_keys (pend : option Span) : list (str * Z) :=
  match pend with
  | Some p => [span_key p]
  | None => []
  end.

(** A pair that records a page on one side at least. *)
Definition has_page (pr : Pair) : Prop :=
  page_en (snd pr) <> None \/ page_hi (snd pr) <> None.

(** A text with a line break, a run of 799 spaces and a second line break
    inside. *)
Definition blank_run_text : str :=
  lit "a" ++ newline ++ repeat 32%N 799 ++ newline ++ lit "b".

(** A PDF reader that fails on the file [broken] and finds one English span
    in every other file. *)
Definition broken : PdfPath := mkPdfPath (lit "a_broken.pdf") (lit "a_broken").
Definition sound : PdfPath := mkPdfPath (lit "b_sound.pdf") (lit "b_sound").

Definition extract_or_fail (pdf_path : PdfPath) : outcome (list Span) :=
  if str_eq_dec (name pdf_path) (name broken)
  then Raises (Exception "FileDataError")
  else Returns [span_at (lit "intro") 1 10%float].

(** The chunks of one document: the body of the loop of the driver. *)
Definition document_chunks
    (detect : str -> outcome str) (create_documents : list str -> list str)
    (extract_blocks : PdfPath -> outcome (list Span)) (pdf_path : PdfPath)
  : outcome (list Chunk) :=
  blocks <- extract_blocks pdf_path ;;
  pairs <- align_blocks detect blocks default_tolerance ;;
  Returns (create_bilingual_chunks create_documents pairs (stem pdf_path)).

(** An entry with no key at all. *)
Definition empty_entry : Entry := mkEntry None None None None None None None.

(** ** Extraction of spans *)

(** The dictionaries of [page.get_text("dict")]; [None] is a key the
    dictionary does not have. *)
Record RawSpan : Type := mkRawSpan {
  raw_text : option str;
  raw_bbox : option (float * float * float * float);
  raw_font : option str
}.

Record RawLine : Type := mkRawLine {
  line_spans : option (list RawSpan)
}.

Record RawBlock : Type := mkRawBlock {
  block_lines : option (list RawLine)
}.

Record PageDict : Type := mkPageDict {
  page_blocks : option (list RawBlock)
}.

(** A loop that appends to [blocks_all] what its body yields for each item,
    and stops at the first exception. *)
Fixpoint collect {A : Type} (body : A -> outcome (list Span)) (items : list A)
  : outcome (list Span) :=
  match items with
  | [] => Returns []
  | item :: rest =>
      here <- body item ;;
      more <- collect body rest ;;
      Returns (here ++ more)
  end.

(** The body of [for span in line.get("spans", [])]; [span["bbox"]] raises
    [KeyError] when the key is missing. *)
Definition collect_span (page_num : Z) (span : RawSpan) : outcome (list Span) :=
  let txt := strip (get (raw_text span) []) in
  if negb (truthy txt) then Returns []
  else
    match raw_bbox span with
    | Some (sx0, sy0, _, _) =>
        Returns [mkSpan txt sx0 sy0 (get (raw_font span) []) page_num]
    | None => Raises (Exception "KeyError")
    end.

Definition collect_line (page_num : Z) (line : RawLine) : outcome (list Span) :=
  collect (collect_span page_num) (get (line_spans line) []).

Definition collect_block (page_num : Z) (block : RawBlock) : outcome (list Span) :=
  collect (collect_line page_num) (get (block_lines block) []).

Definition collect_page (page_num : Z) (page_dict : PageDict) : outcome (list Span) :=
  collect (collect_block page_num) (get (page_blocks page_dict) []).

(** [for page_num, page in enumerate(doc, start=page_num)]. *)
Fixpoint collect_pages (page_num : Z) (doc : list PageDict) : outcome (list Span) :=
  match doc with
  | [] => Returns []
  | page_dict :: rest =>
      here <- collect_page page_num page_dict ;;
      more <- collect_pages (page_num + 1) rest ;;
      Returns (here ++ more)
  end.

(** [(a["page"], a["y0"], a["x0"]) < (b["page"], b["y0"], b["x0"])]: the
    comparison of tuples, decided by the first component where they differ. *)
Definition key_lt (a b : Span) : bool :=
  if negb (page a =? page b)%Z then (page a <? page b)%Z
  else if negb (PrimFloat.eqb (y0 a) (y0 b)) then PrimFloat.ltb (y0 a) (y0 b)
  else if negb (PrimFloat.eqb (x0 a) (x0 b)) then PrimFloat.ltb (x0 a) (x0 b)
  else false.

(** [blocks_all.sort(key=...)]. The sort of Python is stable; when no
    coordinate is NaN the keys are totally ordered and the result is the one
    of the stable insertion below. *)
Fixpoint insert_block (b : Span) (sorted : list Span) : list Span :=
  match sorted with
  | [] => [b]
  | c :: rest => if key_lt c b then c :: insert_block b rest else b :: sorted
  end.

Definition sort_blocks (blocks_all : list Span) : list Span :=
  fold_right insert_block [] blocks_all.

(** [extract_blocks], over the reader [fitz_open], which returns the page
    dictionaries of the file or raises. *)
Definition extract_blocks
    (fitz_open : PdfPath -> outcome (list PageDict)) (pdf_path : PdfPath)
  : outcome (list Span) :=
  doc <- fitz_open pdf_path ;;
  blocks_all <- collect_pages 1 doc ;;
  Returns (sort_blocks blocks_all).

(** The spans of a document, in the order of the loops. *)
Definition line_raw_spans (line : RawLine) : list RawSpan := get (line_spans line) [].
Definition block_raw_spans (block : RawBlock) : list RawSpan :=
  flat_map line_raw_spans (get (block_lines block) []).
Definition page_raw_spans (page_dict : PageDict) : list RawSpan :=
  flat_map block_raw_spans (get (page_blocks page_dict) []).
Definition doc_raw_spans (doc : list PageDict) : list RawSpan :=
  flat_map page_raw_spans doc.

(** The span has a text once stripped. *)
Definition visible (span : RawSpan) : bool := truthy (strip (get (raw_text span) [])).

(** No coordinate of the span is NaN. *)
Definition finite_position (b : Span) : Prop :=
  PrimFloat.is_nan (y0 b) = false /\ PrimFloat.is_nan (x0 b) = false.

(** The text the span gets in [extract_blocks]. *)
Definition stripped_text (span : RawSpan) : str := strip (get (raw_text span) []).

(** The span can be read: it is skipped, or it has a bounding box. *)
Definition readable (span : RawSpan) : Prop :=
  visible span = true -> raw_bbox span <> None.

(** A document of one page: a block of text with two visible spans and a
    blank span without a bounding box between them, and a block with no
    lines (an image). *)
Definition sample_doc : list PageDict :=
  [mkPageDict
     (Some [mkRawBlock
              (Some [mkRawLine
                       (Some [mkRawSpan (Some parichay)
                                        (Some (0, 20, 50, 30)%float)
                                        (Some (lit "Mangal"));
                              mkRawSpan (Some (lit "  ")) None None;
                              mkRawSpan (Some (lit " intro "))
                                        (Some (0, 10, 50, 20)%float)
                                        None])]);
            mkRawBlock None])].

Definition sample_reader (pdf_path : PdfPath) : outcome (list PageDict) :=
  if str_eq_dec (name pdf_path) (name broken)
  then Raises (Exception "FileDataError")
  else Returns sample_doc.

(** A document of one page with an image block and a span of blanks. *)
Definition blank_doc : list PageDict :=
  [mkPageDict
     (Some [mkRawBlock None;
            mkRawBlock
              (Some [mkRawLine (Some [mkRawSpan (Some (lit "  ")) None None])])])].

(** ** Records of the lexicon *)

Record Metadata : Type := mkMetadata {
  md_source : str;
  md_language_pair : str;
  md_category : str;
  md_severity_hint : str;
  md_risk_flag : bool
}.

(** A record [{"id", "text", "metadata"}]; the id is [None] when the entry
    has none. *)
Record CulturalRecord : Type := mkCulturalRecord {
  record_id : option str;
  record_text : str;
  record_metadata : Metadata
}.

(** An entry of the lexicon with the keys that go to the identifier and the
    metadata, beside the ones of the canonical text. *)
Record LexiconEntry : Type := mkLexiconEntry {
  entry_texts : Entry;
  entry_id : option str;
  entry_category : option str;
  entry_severity_hint : option str;
  entry_risk_flag : option bool;
  entry_language_pair : option str
}.

Definition make_record (entry : LexiconEntry) : CulturalRecord :=
  mkCulturalRecord
    (entry_id entry)
    (canonical_text (entry_texts entry))
    (mkMetadata (lit "cultural_semantics")
                (get (entry_language_pair entry) (lit "hi-en"))
                (get (entry_category entry) [])
                (get (entry_severity_hint entry) [])
                (get (entry_risk_flag entry) false)).

(** [load_cultural_semantics], as the list it returns. [file] is [None] when
    the JSON file does not exist, and otherwise the value of the key
    ["entries"] of the object, [None] when the object has no such key. *)
Definition load_cultural_semantics (file : option (option (list LexiconEntry)))
  : list CulturalRecord :=
  match file with
  | None => []
  | Some entries => map make_record (get entries [])
  end.

(** ** Character windows ([build_embeddings_clean.py]) *)

(** The bound [i] of a slice of a sequence of [len] items: a negative bound
    counts from the end, and both ends are clipped. *)
Definition slice_index (len i : Z) : Z :=
  if (i <? 0)%Z then Z.max (i + len) 0 else Z.min i len.

(** [s[start:stop]] *)
Definition slice (s : str) (start stop : Z) : str :=
  let len := Z.of_nat (List.length s) in
  let lo := slice_index len start in
  let up := slice_index len stop in
  firstn (Z.to_nat (up - lo)) (skipn (Z.to_nat lo) s).

(** The functions of [build_embeddings_clean.py] have a name space of their
    own. *)
Module Clean.

(** The [while start < len(text)] loop of [chunk_text], from the current
    [start] and [chunks]; [None] when [fuel] iterations do not reach the
    end of the loop. *)
Fixpoint chunk_text_loop (fuel : nat) (t : str) (chunk_size overlap start : Z)
    (chunks : list str) : option (list str) :=
  match fuel with
  | O => None
  | S fuel' =>
      if (start <? Z.of_nat (List.length t))%Z then
        let stop := (start + chunk_size)%Z in
        let chunk := slice t start stop in
        chunk_text_loop fuel' t chunk_size overlap
                        (start + (chunk_size - overlap))%Z
                        (chunks ++ [strip chunk])
      else Some chunks
  end.

(** [chunk_text(text, chunk_size, overlap)] *)
Definition chunk_text (fuel : nat) (t : str) (chunk_size overlap : Z)
  : option (list str) :=
  match chunk_text_loop fuel t chunk_size overlap 0 [] with
  | Some chunks => Some (filter (fun c => 50 <? List.length c) chunks)
  | None => None
  end.

End Clean.

(** The stripped window of [chunk_size] characters that starts at [start]. *)
Definition window (t : str) (chunk_size start : Z) : str :=
  strip (slice t start (start + chunk_size)).

(** ** Further observations *)

(** A decimal digit. *)
Definition is_digit (c : char) : bool := ((48 <=? c) && (c <=? 57))%N.

(** The Hindi span [b] cannot join the English span [p]. *)
Definition unpairable (y_tolerance : float) (p b : Span) : Prop :=
  (page b =? page p)%Z && within_tolerance b p y_tolerance = false.

(** Where a pair of the result comes from: one English span, one Hindi span,
    or an English span and a later Hindi span of the same page within the
    tolerance. *)
Definition pair_origin
    (detect : str -> outcome str) (y_tolerance : float)
    (blocks : list Span) (pr : Pair) : Prop :=
  (exists p, In p blocks /\ detect_language detect (text p) = Returns en /\
             pr = orphan_en p) \/
  (exists b, In b blocks /\ detect_language detect (text b) = Returns hi /\
             pr = orphan_hi b) \/
  (exists p b before between after,
      blocks = before ++ p :: between ++ b :: after /\
      detect_language detect (text p) = Returns en /\
      detect_language detect (text b) = Returns hi /\
      page b = page p /\ within_tolerance b p y_tolerance = true /\
      pr = paired p b).

(** ** Strings *)

Lemma hi_neq_en : hi <> en.
Proof. discriminate. Qed.

Lemma startswith_spec (p s : str) :
  startswith s p = true <-> exists post, s = p ++ post.
Proof.
  revert s; induction p as [|c p IH]; intros s; simpl.
  - split; [intros _; now exists s | intros _; reflexivity].
  - destruct s as [|d s].
    + split; [discriminate | intros [post H]; discriminate].
    + rewrite andb_true_iff, N.eqb_eq, IH. split.
      * intros [-> [post ->]]. now exists post.
      * intros [post H]. injection H as -> ->. split; [reflexivity | now exists post].
Qed.

Lemma contains_spec (sub s : str) :
  contains s sub = true <-> is_substring sub s.
Proof.
  unfold is_substring. induction s as [|d s IH].
  - simpl. rewrite orb_false_r, startswith_spec. split.
    + intros [post H]. now exists [], post.
    + intros [pre [post H]]. destruct pre as [|x pre]; [now exists post | discriminate].
  - cbn [contains]. rewrite orb_true_iff, IH, startswith_spec. split.
    + intros [[post H] | [pre [post H]]].
      * now exists [], post.
      * exists (d :: pre), post. now rewrite H.
    + intros [pre [post H]]. destruct pre as [|x pre].
      * left. now exists post.
      * right. injection H as _ H. now exists pre, post.
Qed.

Lemma has_devanagari_spec (s : str) :
  has_devanagari s = true <-> exists c, In c s /\ (2304 <= c <= 2431)%N.
Proof.
  unfold has_devanagari, in_devanagari. rewrite existsb_exists.
  split; intros [c [Hin Hc]]; exists c; split; trivial.
  - apply andb_true_iff in Hc. destruct Hc as [H1 H2].
    apply N.leb_le in H1. apply N.leb_le in H2. now split.
  - apply andb_true_iff. split; apply N.leb_le; apply Hc.
Qed.

Lemma lstrip_app_keep (a b : str) (c : char) :
  is_space c = false -> lstrip (a ++ c :: b) = lstrip a ++ c :: b.
Proof.
  intros Hc. induction a as [|x a IH]; simpl.
  - now rewrite Hc.
  - destruct (is_space x); [exact IH | reflexivity].
Qed.

Lemma rstrip_app_keep (a b : str) (c : char) :
  is_space c = false -> rstrip (a ++ c :: b) = a ++ c :: rstrip b.
Proof.
  intros Hc. unfold rstrip.
  rewrite rev_app_distr. simpl rev. rewrite <- app_assoc. simpl app.
  rewrite lstrip_app_keep by exact Hc.
  rewrite rev_app_distr. simpl rev. rewrite rev_involutive.
  now rewrite <- app_assoc.
Qed.

Lemma strip_between (a m b : str) (c d : char) :
  is_space c = false -> is_space d = false ->
  strip (a ++ c :: m ++ d :: b) = lstrip a ++ c :: m ++ d :: rstrip b.
Proof.
  intros Hc Hd. unfold strip.
  rewrite lstrip_app_keep by exact Hc.
  replace (lstrip a ++ c :: m ++ d :: b) with ((lstrip a ++ c :: m) ++ d :: b)
    by now rewrite <- app_assoc.
  rewrite rstrip_app_keep by exact Hd.
  now rewrite <- app_assoc.
Qed.

Lemma strip_nonblank (s : str) : nonblank s <-> strip s <> [].
Proof.
  split.
  - intros [c [Hin Hc]].
    apply in_split in Hin. destruct Hin as [a [b ->]].
    unfold strip. rewrite lstrip_app_keep by exact Hc.
    rewrite rstrip_app_keep by exact Hc.
    intros H. now apply app_eq_nil in H.
  - intros H. unfold strip, rstrip in H.
    destruct (lstrip s) as [|x r] eqn:E; [now elim H|].
    assert (Hx : is_space x = false).
    { clear H. induction s as [|y s IH]; [discriminate|].
      simpl in E. destruct (is_space y) eqn:Hy; [now apply IH|].
      now injection E as <- _. }
    exists x. split; [|exact Hx].
    clear H Hx. induction s as [|y s IH]; [discriminate|].
    simpl in E. destruct (is_space y); [right; now apply IH|].
    injection E as <- _. now left.
Qed.

(** ** The classifier *)

Lemma detect_language_cases (detect : str -> outcome str) (t : str) :
  detect_language detect t = Returns hi \/ detect_language detect t = Returns en.
Proof.
  unfold detect_language. destruct (has_devanagari t); [now left|].
  destruct (detect t) as [lang|e]; cbn [bind try_except]; [|now right].
  destruct (startswith lang hi); [now left|].
  destruct (startswith lang en); now right.
Qed.

Lemma classified_en (detect : str -> outcome str) (b : Span) :
  detect_language detect (text b) = Returns en ->
  classified detect en b = true /\ classified detect hi b = false.
Proof.
  intros H. unfold classified. rewrite H. split.
  - destruct (str_eq_dec en en); congruence.
  - destruct (str_eq_dec en hi) as [E|]; [symmetry in E; now apply hi_neq_en in E | reflexivity].
Qed.

Lemma classified_hi (detect : str -> outcome str) (b : Span) :
  detect_language detect (text b) = Returns hi ->
  classified detect hi b = true /\ classified detect en b = false.
Proof.
  intros H. unfold classified. rewrite H. split.
  - destruct (str_eq_dec hi hi); congruence.
  - destruct (str_eq_dec hi en) as [E|]; [now apply hi_neq_en in E | reflexivity].
Qed.

(** C5. [detect_language] answers Hindi for a text with a Devanagari
    character whatever the detector is (so without its answer); otherwise it
    answers Hindi when the detector returns a code that starts with "hi",
    English when the code starts with "en", English for every other code and
    English when the detector raises. It always returns and never raises. *)
Theorem detect_language_contract (detect : str -> outcome str) (t : str) :
  ((exists c, In c t /\ (2304 <= c <= 2431)%N) ->
   forall other : str -> outcome str, detect_language other t = Returns hi) /\
  ((forall c, In c t -> ~ (2304 <= c <= 2431)%N) ->
   (forall lang, detect t = Returns lang -> (exists rest, lang = hi ++ rest) ->
                 detect_language detect t = Returns hi) /\
   (forall lang, detect t = Returns lang -> (exists rest, lang = en ++ rest) ->
                 detect_language detect t = Returns en) /\
   (forall lang, detect t = Returns lang -> ~ (exists rest, lang = hi ++ rest) ->
                 detect_language detect t = Returns en) /\
   (forall e, detect t = Raises e -> detect_language detect t = Returns en)) /\
  (exists lang, detect_language detect t = Returns lang /\ (lang = hi \/ lang = en)).
Proof.
  split; [|split].
  - intros H other. apply has_devanagari_spec in H.
    unfold detect_language. now rewrite H.
  - intros Hnone.
    assert (Hdev : has_devanagari t = false).
    { destruct (has_devanagari t) eqn:E; [|reflexivity].
      apply has_devanagari_spec in E. destruct E as [c [Hin Hc]].
      now elim (Hnone c Hin). }
    unfold detect_language. rewrite Hdev.
    repeat split.
    + intros lang -> Hpre. apply startswith_spec in Hpre.
      cbn [bind try_except]. now rewrite Hpre.
    + intros lang -> [rest ->]. reflexivity.
    + intros lang -> Hpre. cbn [bind try_except].
      destruct (startswith lang hi) eqn:E.
      * apply startswith_spec in E. now elim Hpre.
      * now destruct (startswith lang en).
    + intros e ->. reflexivity.
  - destruct (detect_language_cases detect t) as [H|H]; rewrite H.
    + exists hi. split; [reflexivity | now left].
    + exists en. split; [reflexivity | now right].
Qed.

Lemma detect_language_contract_witness :
  detect_language detect_fails parichay = Returns hi /\
  detect_language detect_words (lit "intro") = Returns en /\
  detect_language detect_fails (lit "intro") = Returns en.
Proof.
  split; [|split].
  - apply (proj1 (detect_language_contract detect_words parichay)).
    exists 2346%N. split; [now left | lia].
  - destruct (detect_language_contract detect_words (lit "intro")) as [_ [H _]].
    assert (Hnone : forall c, In c (lit "intro") -> ~ (2304 <= c <= 2431)%N).
    { intros c Hin. simpl in Hin.
      repeat (destruct Hin as [<- | Hin]; [lia|]). contradiction. }
    destruct (H Hnone) as [_ [Hen _]].
    apply (Hen (lit "en")); [reflexivity | now exists []].
  - destruct (detect_language_contract detect_fails (lit "intro")) as [_ [H _]].
    assert (Hnone : forall c, In c (lit "intro") -> ~ (2304 <= c <= 2431)%N).
    { intros c Hin. simpl in Hin.
      repeat (destruct Hin as [<- | Hin]; [lia|]). contradiction. }
    destruct (H Hnone) as [_ [_ [_ Hraise]]].
    apply (Hraise (Exception "LangDetectException")). reflexivity.
Defined.

(** ** The aligner *)

Section AlignerFacts.

Variable detect : str -> outcome str.
Variable tol : float.

Lemma align_step_en (ps : list Pair) (pend : option Span) (b : Span) :
  detect_language detect (text b) = Returns en ->
  align_step detect tol (ps, pend) b = Returns (ps ++ flushed pend, Some b).
Proof.
  intros H. unfold align_step. rewrite H. unfold bind.
  destruct (str_eq_dec en en) as [_|N]; [|now elim N].
  destruct pend; simpl; [reflexivity | now rewrite app_nil_r].
Qed.

Lemma align_step_hi (ps : list Pair) (pend : option Span) (b : Span) :
  detect_language detect (text b) = Returns hi ->
  align_step detect tol (ps, pend) b =
  match pend with
  | Some p =>
      if Z.eqb (page b) (page p) && within_tolerance b p tol
      then Returns (ps ++ [paired p b], None)
      else Returns (ps ++ [orphan_hi b], pend)
  | None => Returns (ps ++ [orphan_hi b], pend)
  end.
Proof.
  intros H. unfold align_step. rewrite H. unfold bind.
  destruct (str_eq_dec hi en) as [E|_]; [now apply hi_neq_en in E|].
  destruct (str_eq_dec hi hi) as [_|N]; [reflexivity | now elim N].
Qed.

Lemma align_loop_app (xs ys : list Span) (st : AlignState) :
  align_loop detect tol st (xs ++ ys) =
  bind (align_loop detect tol st xs) (fun st' => align_loop detect tol st' ys).
Proof.
  revert st. induction xs as [|x xs IH]; intros st; [reflexivity|].
  cbn [app align_loop]. destruct (align_step detect tol st x) as [st'|e];
    [apply IH | reflexivity].
Qed.

Lemma align_step_returns (st : AlignState) (b : Span) :
  exists st', align_step detect tol st b = Returns st'.
Proof.
  destruct st as [ps pend].
  destruct (detect_language_cases detect (text b)) as [H|H].
  - rewrite (align_step_hi _ _ _ H). destruct pend as [p|]; [|eauto].
    destruct (Z.eqb (page b) (page p) && within_tolerance b p tol); eauto.
  - rewrite (align_step_en _ _ _ H). eauto.
Qed.

Lemma align_loop_returns (blocks : list Span) (st : AlignState) :
  exists st', align_loop detect tol st blocks = Returns st'.
Proof.
  revert st. induction blocks as [|b blocks IH]; intros st; [now exists st|].
  cbn [align_loop]. destruct (align_step_returns st b) as [st1 ->]. apply IH.
Qed.

Lemma align_loop_snoc (pre : list Span) (b : Span) (st : AlignState) :
  align_loop detect tol align_init pre = Returns st ->
  align_loop detect tol align_init (pre ++ [b]) = align_step detect tol st b.
Proof.
  intros H. rewrite align_loop_app, H. cbn [bind align_loop].
  now destruct (align_step detect tol st b).
Qed.

(** A property [P] of the three kinds of tuples, for spans that satisfy
    [Q], holds of every pair of the result. *)
Section Invariant.

Variable P : Pair -> Prop.
Variable Q : Span -> Prop.
Hypothesis P_orphan_en : forall p, Q p -> P (orphan_en p).
Hypothesis P_orphan_hi : forall b, Q b -> P (orphan_hi b).
Hypothesis P_paired : forall p b, Q p -> Q b -> page b = page p -> P (paired p b).

Lemma align_loop_Forall (blocks : list Span) :
  forall (ps : list Pair) (pend : option Span),
    Forall Q blocks -> Forall P ps -> (forall p : Span, pend = Some p -> Q p) ->
    exists ps' pend',
      align_loop detect tol (ps, pend) blocks = Returns (ps', pend') /\
      Forall P ps' /\ (forall p, pend' = Some p -> Q p).
Proof.
  induction blocks as [|b blocks IH]; intros ps pend HQ HP Hpend.
  - exists ps, pend. now repeat split.
  - inversion HQ as [|? ? Hb Hrest]; subst. cbn [align_loop].
    destruct (detect_language_cases detect (text b)) as [H|H].
    + rewrite (align_step_hi _ _ _ H). destruct pend as [p|].
      * destruct (Z.eqb (page b) (page p) && within_tolerance b p tol) eqn:E;
          cbn [bind].
        -- apply andb_true_iff in E. destruct E as [E _]. apply Z.eqb_eq in E.
           apply IH; trivial; [|discriminate].
           apply Forall_app. split; [exact HP|].
           constructor; [|constructor]. apply P_paired; auto.
        -- apply IH; trivial.
           apply Forall_app. split; [exact HP|].
           constructor; [|constructor]. now apply P_orphan_hi.
      * cbn [bind]. apply IH; trivial.
        apply Forall_app. split; [exact HP|].
        constructor; [|constructor]. now apply P_orphan_hi.
    + rewrite (align_step_en _ _ _ H). cbn [bind]. apply IH; trivial.
      * apply Forall_app. split; [exact HP|].
        destruct pend as [p|]; simpl; [|constructor].
        constructor; [|constructor]. apply P_orphan_en. now apply Hpend.
      * intros p Hp. now injection Hp as <-.
Qed.

Lemma align_blocks_Forall (blocks : list Span) :
  Forall Q blocks ->
  exists pairs, align_blocks detect blocks tol = Returns pairs /\ Forall P pairs.
Proof.
  intros HQ. unfold align_blocks.
  destruct (align_loop_Forall blocks [] None HQ)
    as [ps [pend [Hrun [HP Hpend]]]]; [constructor | discriminate |].
  unfold align_init. rewrite Hrun. cbn [bind].
  eexists. split; [reflexivity|].
  unfold align_flush. cbn [fst snd]. destruct pend as [p|]; [|exact HP].
  apply Forall_app. split; [exact HP|].
  constructor; [|constructor]. apply P_orphan_en. now apply Hpend.
Qed.

End Invariant.

End AlignerFacts.

(** C1. When the span [b] that follows the prefix [pre] is classified Hindi,
    the step appends the tuple [(pending text, text of b, pages of both)]
    and empties the slot exactly when a pending span [p] exists, is on the
    page of [b] and [abs(b.y0 - p.y0) <= y_tolerance] holds (bound
    included); in every other case it appends the tuple
    [("", text of b, page_en None, page of b)] and leaves the slot as it
    was. Spans of different pages are never paired. The test and the tuples
    are written out in the statement. *)
Theorem align_secondary_span
    (detect : str -> outcome str) (tol : float) (pre : list Span) (b : Span) :
  detect_language detect (text b) = Returns hi ->
  exists ps pend,
    align_loop detect tol align_init pre = Returns (ps, pend) /\
    (forall p, pend = Some p -> page p = page b ->
       PrimFloat.leb (PrimFloat.abs (PrimFloat.sub (y0 b) (y0 p))) tol = true ->
       align_loop detect tol align_init (pre ++ [b])
       = Returns (ps ++ [(text p, text b, mkMeta (Some (page p)) (Some (page b)))],
                  None)) /\
    (~ (exists p, pend = Some p /\ page p = page b /\
                  PrimFloat.leb (PrimFloat.abs (PrimFloat.sub (y0 b) (y0 p))) tol
                  = true) ->
       align_loop detect tol align_init (pre ++ [b])
       = Returns (ps ++ [([], text b, mkMeta None (Some (page b)))], pend)) /\
    ((exists p, pend = Some p /\
                align_loop detect tol align_init (pre ++ [b])
                = Returns (ps ++ [(text p, text b,
                                   mkMeta (Some (page p)) (Some (page b)))],
                           None))
     <-> (exists p, pend = Some p /\ page p = page b /\
                    PrimFloat.leb (PrimFloat.abs (PrimFloat.sub (y0 b) (y0 p))) tol
                    = true)) /\
    (forall p, pend = Some p -> page p <> page b ->
       align_loop detect tol align_init (pre ++ [b])
       = Returns (ps ++ [([], text b, mkMeta None (Some (page b)))], pend)).
Proof.
  intros Hhi.
  destruct (align_loop_returns detect tol pre align_init) as [[ps pend] Hpre].
  exists ps, pend. split; [exact Hpre|].
  rewrite (align_loop_snoc detect tol pre b _ Hpre), (align_step_hi detect tol ps pend b Hhi).
  unfold within_tolerance, paired, orphan_hi.
  repeat split.
  - intros p -> Hpage Hnear.
    rewrite Hpage, Z.eqb_refl, Hnear. reflexivity.
  - intros Hnot. destruct pend as [p|]; [|reflexivity].
    destruct (Z.eqb (page b) (page p)
              && PrimFloat.leb (PrimFloat.abs (PrimFloat.sub (y0 b) (y0 p))) tol)
      eqn:E; [|reflexivity].
    apply andb_true_iff in E. destruct E as [E1 E2]. apply Z.eqb_eq in E1.
    elim Hnot. exists p. now repeat split.
  - intros [p [-> Hres]].
    destruct (Z.eqb (page b) (page p)
              && PrimFloat.leb (PrimFloat.abs (PrimFloat.sub (y0 b) (y0 p))) tol)
      eqn:E.
    + apply andb_true_iff in E. destruct E as [E1 E2]. apply Z.eqb_eq in E1.
      exists p. now repeat split.
    + discriminate Hres.
  - intros [p [-> [Hpage Hnear]]]. exists p. split; [reflexivity|].
    rewrite Hpage, Z.eqb_refl, Hnear. reflexivity.
  - intros p -> Hpage.
    destruct (Z.eqb (page b) (page p)) eqn:E; [|reflexivity].
    apply Z.eqb_eq in E. now elim Hpage.
Qed.

(** The boundary of the tolerance, with the results written out: at a
    distance of exactly 120 the two spans are paired; at 220.01 (the nearest
    binary64 number) against 100 the Hindi span is orphaned and the English
    span stays pending; a smaller tolerance orphans the first case too; and
    a span of another page at the same height is orphaned. *)
Lemma align_secondary_span_witness :
  align_loop detect_words 120%float align_init
             ([span_at (lit "intro") 1 100%float] ++ [span_at parichay 1 220%float])
  = Returns ([(lit "intro", parichay, mkMeta (Some 1%Z) (Some 1%Z))], None) /\
  align_loop detect_words 120%float align_init
             ([span_at (lit "intro") 1 100%float]
                ++ [span_at parichay 1 0x1.b8051eb851eb8p+7%float])
  = Returns ([([], parichay, mkMeta None (Some 1%Z))],
             Some (span_at (lit "intro") 1 100%float)) /\
  align_loop detect_words 50%float align_init
             ([span_at (lit "intro") 1 100%float] ++ [span_at parichay 1 220%float])
  = Returns ([([], parichay, mkMeta None (Some 1%Z))],
             Some (span_at (lit "intro") 1 100%float)) /\
  align_loop detect_words 120%float align_init
             ([span_at (lit "intro") 1 100%float] ++ [span_at parichay 2 100%float])
  = Returns ([([], parichay, mkMeta None (Some 2%Z))],
             Some (span_at (lit "intro") 1 100%float)).
Proof.
  split; [|split; [|split]].
  - destruct (align_secondary_span detect_words 120%float
                [span_at (lit "intro") 1 100%float] (span_at parichay 1 220%float)
                eq_refl)
      as [ps [pend [Hpre [Hpair _]]]].
    vm_compute in Hpre. injection Hpre as <- <-.
    exact (Hpair _ eq_refl eq_refl eq_refl).
  - destruct (align_secondary_span detect_words 120%float
                [span_at (lit "intro") 1 100%float]
                (span_at parichay 1 0x1.b8051eb851eb8p+7%float) eq_refl)
      as [ps [pend [Hpre [_ [Horphan _]]]]].
    vm_compute in Hpre. injection Hpre as <- <-.
    apply Horphan. intros [p [Hp [_ Hle]]]. injection Hp as <-.
    vm_compute in Hle. discriminate Hle.
  - destruct (align_secondary_span detect_words 50%float
                [span_at (lit "intro") 1 100%float] (span_at parichay 1 220%float)
                eq_refl)
      as [ps [pend [Hpre [_ [Horphan _]]]]].
    vm_compute in Hpre. injection Hpre as <- <-.
    apply Horphan. intros [p [Hp [_ Hle]]]. injection Hp as <-.
    vm_compute in Hle. discriminate Hle.
  - destruct (align_secondary_span detect_words 120%float
                [span_at (lit "intro") 1 100%float] (span_at parichay 2 100%float)
                eq_refl)
      as [ps [pend [Hpre [_ [_ [_ Hpage]]]]]].
    vm_compute in Hpre. injection Hpre as <- <-.
    apply (Hpage _ eq_refl). discriminate.
Defined.

Example tolerance_is_inclusive :
  align_blocks detect_words
    [span_at (lit "intro") 1 100%float; span_at parichay 1 220%float] 120%float
  = Returns [(lit "intro", parichay, mkMeta (Some 1%Z) (Some 1%Z))].
Proof. vm_compute. reflexivity. Qed.

Example beyond_tolerance_is_orphaned :
  align_blocks detect_words
    [span_at (lit "intro") 1 100%float; span_at parichay 1 0x1.b8051eb851eb8p+7%float]
    120%float
  = Returns [([], parichay, mkMeta None (Some 1%Z));
             (lit "intro", [], mkMeta (Some 1%Z) None)].
Proof. vm_compute. reflexivity. Qed.

Example other_page_is_orphaned :
  align_blocks detect_words
    [span_at (lit "intro") 1 100%float; span_at parichay 2 100%float] 120%float
  = Returns [([], parichay, mkMeta None (Some 2%Z));
             (lit "intro", [], mkMeta (Some 1%Z) None)].
Proof. vm_compute. reflexivity. Qed.

(** C4. An English span that arrives while a span is pending makes the loop
    append the English-only pair of the pending span, and the new span takes
    the slot; a span still pending when the scan ends is appended as an
    English-only pair; two English spans give exactly the two English-only
    pairs. *)
Theorem align_primary_span (detect : str -> outcome str) (tol : float) :
  (forall pre b,
      detect_language detect (text b) = Returns en ->
      exists ps pend,
        align_loop detect tol align_init pre = Returns (ps, pend) /\
        align_loop detect tol align_init (pre ++ [b])
        = Returns (ps ++ flushed pend, Some b)) /\
  (forall blocks ps pend,
      align_loop detect tol align_init blocks = Returns (ps, pend) ->
      align_blocks detect blocks tol = Returns (ps ++ flushed pend)) /\
  (forall a b,
      detect_language detect (text a) = Returns en ->
      detect_language detect (text b) = Returns en ->
      align_blocks detect [a; b] tol = Returns [orphan_en a; orphan_en b]).
Proof.
  repeat split.
  - intros pre b Hen.
    destruct (align_loop_returns detect tol pre align_init) as [[ps pend] Hpre].
    exists ps, pend. split; [exact Hpre|].
    rewrite (align_loop_snoc detect tol pre b _ Hpre).
    now apply align_step_en.
  - intros blocks ps pend Hrun. unfold align_blocks. rewrite Hrun. cbn [bind].
    unfold align_flush. cbn [fst snd].
    destruct pend; simpl; [reflexivity | now rewrite app_nil_r].
  - intros a b Ha Hb. unfold align_blocks, align_init. cbn [align_loop].
    rewrite (align_step_en detect tol [] None a Ha). cbn [bind].
    rewrite (align_step_en detect tol _ _ b Hb). reflexivity.
Qed.

(** The orphan scenario: two English spans at the same position. *)
Lemma align_primary_span_witness :
  align_blocks detect_words
    [span_at (lit "intro") 1 10%float; span_at (lit "follow-up") 1 10%float]
    default_tolerance
  = Returns [(lit "intro", [], mkMeta (Some 1%Z) None);
             (lit "follow-up", [], mkMeta (Some 1%Z) None)].
Proof.
  apply (proj2 (proj2 (align_primary_span detect_words default_tolerance))
           (span_at (lit "intro") 1 10%float) (span_at (lit "follow-up") 1 10%float));
    reflexivity.
Defined.

(** C2. When no span has an empty text, [align_blocks] returns, and every
    pair it returns has a text on at least one side. *)
Theorem align_blocks_one_side_present
    (detect : str -> outcome str) (blocks : list Span) (tol : float) :
  Forall (fun b => text b <> []) blocks ->
  exists pairs,
    align_blocks detect blocks tol = Returns pairs /\
    Forall one_side_present pairs.
Proof.
  apply align_blocks_Forall.
  - intros p Hp. left. exact Hp.
  - intros b Hb. right. exact Hb.
  - intros p b Hp _ _. left. exact Hp.
Qed.

Lemma align_blocks_one_side_present_witness :
  exists pairs,
    align_blocks detect_words
      [span_at (lit "intro") 1 10%float; span_at parichay 1 20%float]
      default_tolerance = Returns pairs /\
    Forall one_side_present pairs.
Proof.
  apply (align_blocks_one_side_present detect_words
           [span_at (lit "intro") 1 10%float; span_at parichay 1 20%float]
           default_tolerance).
  repeat constructor; discriminate.
Defined.

(** C10. For every sequence of spans (a span has a text that is not empty:
    that is the data model, and what [extract_blocks], the only caller,
    yields), [align_blocks] returns, and every pair it returns records the
    English page exactly when it has an English text, the Hindi page
    exactly when it has a Hindi text, and the same page twice when it has
    both. *)
Theorem align_blocks_pages_consistent
    (detect : str -> outcome str) (blocks : list Span) (tol : float) :
  Forall (fun b => text b <> []) blocks ->
  exists pairs,
    align_blocks detect blocks tol = Returns pairs /\
    Forall pages_consistent pairs.
Proof.
  apply align_blocks_Forall; unfold pages_consistent; cbn.
  - intros p Hp. intuition congruence.
  - intros b Hb. intuition congruence.
  - intros p b Hp Hb Hpage. intuition congruence.
Qed.

Lemma align_blocks_pages_consistent_witness :
  exists pairs,
    align_blocks detect_words
      [span_at (lit "intro") 1 10%float; span_at parichay 1 20%float]
      default_tolerance = Returns pairs /\
    Forall pages_consistent pairs.
Proof.
  apply (align_blocks_pages_consistent detect_words
           [span_at (lit "intro") 1 10%float; span_at parichay 1 20%float]
           default_tolerance).
  repeat constructor; discriminate.
Defined.

(** *** Counting *)

Lemma en_side_app (ps qs : list Pair) : en_side (ps ++ qs) = en_side ps ++ en_side qs.
Proof. apply flat_map_app. Qed.

Lemma hi_side_app (ps qs : list Pair) : hi_side (ps ++ qs) = hi_side ps ++ hi_side qs.
Proof. apply flat_map_app. Qed.

Lemma en_side_flushed (pend : option Span) : en_side (flushed pend) = slot_keys pend.
Proof. now destruct pend. Qed.

Lemma hi_side_flushed (pend : option Span) : hi_side (flushed pend) = [].
Proof. now destruct pend. Qed.

Lemma align_loop_sides (detect : str -> outcome str) (tol : float) (blocks : list Span) :
  forall (ps : list Pair) (pend : option Span),
  exists ps' pend',
    align_loop detect tol (ps, pend) blocks = Returns (ps', pend') /\
    en_side ps' ++ slot_keys pend'
    = (en_side ps ++ slot_keys pend)
        ++ map span_key (filter (classified detect en) blocks) /\
    hi_side ps'
    = hi_side ps ++ map span_key (filter (classified detect hi) blocks).
Proof.
  induction blocks as [|b blocks IH]; intros ps pend.
  - exists ps, pend. cbn. now rewrite !app_nil_r.
  - cbn [align_loop filter].
    destruct (detect_language_cases detect (text b)) as [H|H].
    + destruct (classified_hi detect b H) as [-> ->].
      rewrite (align_step_hi detect tol ps pend b H).
      assert (Horphan :
        exists ps' pend',
          align_loop detect tol (ps ++ [orphan_hi b], pend) blocks
          = Returns (ps', pend') /\
          en_side ps' ++ slot_keys pend'
          = (en_side ps ++ slot_keys pend)
              ++ map span_key (filter (classified detect en) blocks) /\
          hi_side ps'
          = hi_side ps
              ++ map span_key (b :: filter (classified detect hi) blocks)).
      { destruct (IH (ps ++ [orphan_hi b]) pend) as [ps' [pend' [Hrun [Hen Hhi]]]].
        exists ps', pend'. split; [exact Hrun|]. split.
        - rewrite Hen, en_side_app. cbn. now rewrite app_nil_r.
        - rewrite Hhi, hi_side_app. cbn. now rewrite <- app_assoc. }
      destruct pend as [p|]; [|exact Horphan].
      destruct (Z.eqb (page b) (page p) && within_tolerance b p tol);
        [|exact Horphan].
      cbn [bind].
      destruct (IH (ps ++ [paired p b]) None) as [ps' [pend' [Hrun [Hen Hhi]]]].
      exists ps', pend'. split; [exact Hrun|]. split.
      * rewrite Hen, en_side_app. cbn. now rewrite app_nil_r.
      * rewrite Hhi, hi_side_app. cbn. now rewrite <- app_assoc.
    + destruct (classified_en detect b H) as [-> ->].
      rewrite (align_step_en detect tol ps pend b H). cbn [bind].
      destruct (IH (ps ++ flushed pend) (Some b)) as [ps' [pend' [Hrun [Hen Hhi]]]].
      exists ps', pend'. split; [exact Hrun|]. split.
      * rewrite Hen, en_side_app, en_side_flushed. cbn.
        now rewrite <- !app_assoc.
      * rewrite Hhi, hi_side_app, hi_side_flushed. now rewrite app_nil_r.
Qed.

Lemma pairs_count (ps : list Pair) :
  Forall has_page ps ->
  List.length ps + List.length (filter is_paired ps)
  = List.length (en_side ps) + List.length (hi_side ps).
Proof.
  unfold en_side, hi_side.
  induction 1 as [|[[e h] [pe ph]] ps Hpr _ IH]; [reflexivity|].
  unfold has_page in Hpr. cbn in Hpr.
  destruct pe, ph; cbn in *; try lia.
  destruct Hpr as [Hpr|Hpr]; now elim Hpr.
Qed.

Lemma paired_le_hi_side (ps : list Pair) :
  List.length (filter is_paired ps) <= List.length (hi_side ps).
Proof.
  unfold hi_side.
  induction ps as [|[[e h] [pe ph]] ps IH]; [reflexivity|].
  destruct pe, ph; cbn in *; lia.
Qed.

Lemma classified_partition (detect : str -> outcome str) (blocks : list Span) :
  List.length (filter (classified detect en) blocks)
  + List.length (filter (classified detect hi) blocks) = List.length blocks.
Proof.
  induction blocks as [|b blocks IH]; [reflexivity|]. cbn [filter].
  destruct (detect_language_cases detect (text b)) as [H|H].
  - destruct (classified_hi detect b H) as [-> ->]. cbn [List.length]. lia.
  - destruct (classified_en detect b H) as [-> ->]. cbn [List.length]. lia.
Qed.

(** C3. [align_blocks] returns; the English sides of its pairs are the
    spans classified English, each once and in order, and the Hindi sides
    are the spans classified Hindi, each once and in order; every span is
    classified one way or the other; so the number of pairs is the number of
    English spans plus the number of Hindi spans that were not merged into a
    two-sided pair. *)
Theorem align_blocks_accounts_for_every_span
    (detect : str -> outcome str) (blocks : list Span) (tol : float) :
  exists pairs,
    align_blocks detect blocks tol = Returns pairs /\
    en_side pairs = map span_key (filter (classified detect en) blocks) /\
    hi_side pairs = map span_key (filter (classified detect hi) blocks) /\
    List.length (filter (classified detect en) blocks)
    + List.length (filter (classified detect hi) blocks) = List.length blocks /\
    List.length (filter is_paired pairs)
    <= List.length (filter (classified detect hi) blocks) /\
    List.length pairs
    = List.length (filter (classified detect en) blocks)
      + (List.length (filter (classified detect hi) blocks)
         - List.length (filter is_paired pairs)).
Proof.
  destruct (align_loop_sides detect tol blocks [] None)
    as [ps [pend [Hrun [Hen Hhi]]]].
  destruct (align_blocks_Forall detect tol has_page (fun _ => True)) with (blocks := blocks)
    as [pairs [Hret Hshape]].
  - intros p _. left. discriminate.
  - intros b _. right. discriminate.
  - intros p b _ _ _. left. discriminate.
  - now apply Forall_forall.
  - exists pairs. split; [exact Hret|].
    assert (Hpairs : pairs = ps ++ flushed pend).
    { unfold align_blocks, align_init in Hret. rewrite Hrun in Hret.
      cbn [bind] in Hret. injection Hret as <-.
      unfold align_flush. cbn [fst snd]. destruct pend; cbn; [reflexivity|].
      now rewrite app_nil_r. }
    assert (Hen' : en_side pairs = map span_key (filter (classified detect en) blocks)).
    { rewrite Hpairs, en_side_app, en_side_flushed. exact Hen. }
    assert (Hhi' : hi_side pairs = map span_key (filter (classified detect hi) blocks)).
    { rewrite Hpairs, hi_side_app, hi_side_flushed, app_nil_r. exact Hhi. }
    pose proof (pairs_count pairs Hshape) as Hcount.
    pose proof (paired_le_hi_side pairs) as Hle.
    rewrite Hen', Hhi', !length_map in Hcount.
    rewrite Hhi', length_map in Hle.
    repeat split; trivial.
    + apply classified_partition.
    + lia.
Qed.

(** ** The chunk builder *)

Lemma label_chunks_nth (source_name : str) (docs : list str) :
  forall (i k : nat) (c : Chunk),
    nth_error (label_chunks source_name i docs) k = Some c ->
    exists d, nth_error docs k = Some d /\ c = make_chunk source_name (i + k) d.
Proof.
  induction docs as [|d docs IH]; intros i k c H.
  - destruct k; discriminate.
  - destruct k as [|k]; cbn in H.
    + injection H as <-. exists d. split; [reflexivity|]. now rewrite Nat.add_0_r.
    + destruct (IH (S i) k c H) as [d' [Hd ->]].
      exists d'. split; [exact Hd|]. now rewrite Nat.add_succ_r.
Qed.

Lemma perfect_neq_partial : lit "perfect" <> lit "partial".
Proof. discriminate. Qed.

Lemma make_chunk_status (source_name : str) (i : nat) (d : str) :
  (alignment_status (make_chunk source_name i d) = lit "perfect" <->
   is_substring (lit "EN:") (chunk_text (make_chunk source_name i d)) /\
   is_substring (lit "HI:") (chunk_text (make_chunk source_name i d))) /\
  (~ (is_substring (lit "EN:") (chunk_text (make_chunk source_name i d)) /\
      is_substring (lit "HI:") (chunk_text (make_chunk source_name i d))) ->
   alignment_status (make_chunk source_name i d) = lit "partial").
Proof.
  unfold make_chunk. cbn [alignment_status chunk_text].
  rewrite <- !contains_spec.
  destruct (contains (strip d) (lit "EN:")), (contains (strip d) (lit "HI:"));
    cbn [andb]; split;
    try (split; [intros H; try (now split); now apply perfect_neq_partial in H
                | intros [H1 H2]; try reflexivity; discriminate]);
    intros H; try reflexivity; elim H; now split.
Qed.

(** C6. The chunk at position [k] (from 0) of the result has the identifier
    [source_name ++ "_chunk_" ++ str(k + 1)]; its status is ["perfect"]
    exactly when its text contains both ["EN:"] and ["HI:"], and
    ["partial"] otherwise. *)
Theorem chunk_labels
    (create_documents : list str -> list str)
    (pairs : list Pair) (source_name : str) (k : nat) (c : Chunk) :
  nth_error (create_bilingual_chunks create_documents pairs source_name) k = Some c ->
  chunk_id c = source_name ++ lit "_chunk_" ++ str_of_nat (S k) /\
  source c = source_name /\
  (alignment_status c = lit "perfect" <->
   is_substring (lit "EN:") (chunk_text c) /\ is_substring (lit "HI:") (chunk_text c)) /\
  (~ (is_substring (lit "EN:") (chunk_text c) /\ is_substring (lit "HI:") (chunk_text c)) ->
   alignment_status c = lit "partial").
Proof.
  unfold create_bilingual_chunks. intros H.
  assert (Hc : exists d, c = make_chunk source_name (S k) d).
  { destruct (formatted_blocks pairs) as [|blk blks].
    - destruct k; discriminate.
    - destruct (label_chunks_nth _ _ _ _ _ H) as [d [_ ->]]. now exists d. }
  destruct Hc as [d ->].
  split; [reflexivity|]. split; [reflexivity|].
  apply make_chunk_status.
Qed.

(** The end-to-end scenario: one two-sided pair gives one chunk, numbered 1
    and labelled ["perfect"]. *)
Lemma chunk_labels_witness :
  chunk_id (make_chunk (lit "doc") 1 (lit "EN: intro" ++ newline ++ lit "HI: " ++ parichay))
  = lit "doc_chunk_1" /\
  alignment_status
    (make_chunk (lit "doc") 1 (lit "EN: intro" ++ newline ++ lit "HI: " ++ parichay))
  = lit "perfect".
Proof.
  destruct (chunk_labels whole_splitter
              [(lit "intro", parichay, mkMeta (Some 1%Z) (Some 1%Z))] (lit "doc") 0
              (make_chunk (lit "doc") 1
                 (lit "EN: intro" ++ newline ++ lit "HI: " ++ parichay))
              eq_refl) as [Hid _].
  split; [exact Hid | reflexivity].
Defined.

Example chunk_numbers_are_decimal :
  str_of_nat 1 = lit "1" /\ str_of_nat 10 = lit "10" /\ str_of_nat 123 = lit "123".
Proof. repeat split. Qed.

Example orphans_give_partial_chunks :
  map alignment_status
      (create_bilingual_chunks whole_splitter
         [orphan_en (span_at (lit "intro") 1 10%float);
          orphan_en (span_at (lit "follow-up") 1 10%float)] (lit "doc"))
  = [lit "partial"; lit "partial"].
Proof. reflexivity. Qed.

Lemma format_block_None (p : Pair) :
  format_block p = None <-> fst (fst p) = [] /\ snd (fst p) = [].
Proof.
  destruct p as [[e h] m]. cbn [fst snd format_block].
  destruct e, h; cbn; split; try discriminate; try (intros [? ?]; discriminate);
    now intros.
Qed.

Lemma format_block_nonempty (p : Pair) (blk : str) :
  format_block p = Some blk -> blk <> [].
Proof.
  destruct p as [[e h] m]. cbn [format_block].
  destruct e, h; cbn; try discriminate; intros H; injection H as <-; discriminate.
Qed.

Lemma formatted_blocks_nonempty (pairs : list Pair) :
  Forall (fun blk => blk <> []) (formatted_blocks pairs).
Proof.
  induction pairs as [|p pairs IH]; [constructor|]. cbn [formatted_blocks].
  destruct (format_block p) as [blk|] eqn:E; [|exact IH].
  constructor; [now apply (format_block_nonempty p) | exact IH].
Qed.

Lemma formatted_blocks_all_absent (pairs : list Pair) :
  (forall p, In p pairs -> fst (fst p) = [] /\ snd (fst p) = []) ->
  formatted_blocks pairs = [].
Proof.
  induction pairs as [|p pairs IH]; intros H; [reflexivity|]. cbn [formatted_blocks].
  rewrite (proj2 (format_block_None p) (H p (or_introl eq_refl))).
  apply IH. intros q Hq. apply H. now right.
Qed.

(** C7. The code at the failing input: a text that holds a line break, a
    run of 799 spaces and a second line break. The splitter hands the piece
    of 800 white-space characters back as a document of its own,
    [create_bilingual_chunks] strips it and appends the chunk without
    looking at the result, and the second chunk of the three has an empty
    text and the length 0. *)
Lemma chunk_text_can_be_empty :
  map chunk_text
      (create_bilingual_chunks line_splitter
         [(blank_run_text, [], mkMeta (Some 1%Z) None)] (lit "doc"))
  = [lit "EN: a"; []; lit "b"] /\
  map chunk_length
      (create_bilingual_chunks line_splitter
         [(blank_run_text, [], mkMeta (Some 1%Z) None)] (lit "doc"))
  = [5; 0; 1] /\
  exists c,
    nth_error (create_bilingual_chunks line_splitter
                 [(blank_run_text, [], mkMeta (Some 1%Z) None)] (lit "doc")) 1
    = Some c /\
    chunk_id c = lit "doc_chunk_2" /\
    chunk_text c = [].
Proof.
  split; [vm_compute; reflexivity|]. split; [vm_compute; reflexivity|].
  eexists. repeat split; vm_compute; reflexivity.
Qed.

(** ** The batch driver *)

Section DriverFacts.

Variable detect : str -> outcome str.
Variable create_documents : list str -> list str.
Variable extract_blocks : PdfPath -> outcome (list Span).

Lemma align_blocks_returns (blocks : list Span) (tol : float) :
  exists pairs, align_blocks detect blocks tol = Returns pairs.
Proof.
  unfold align_blocks.
  destruct (align_loop_returns detect tol blocks align_init) as [st ->].
  now exists (align_flush st).
Qed.

Lemma process_loop_cons (all_chunks : list Chunk) (pdf_path : PdfPath)
    (rest : list PdfPath) :
  process_loop detect create_documents extract_blocks all_chunks (pdf_path :: rest)
  = bind (document_chunks detect create_documents extract_blocks pdf_path)
         (fun chunks =>
            process_loop detect create_documents extract_blocks
                         (all_chunks ++ chunks) rest).
Proof.
  cbn [process_loop]. unfold document_chunks.
  destruct (extract_blocks pdf_path) as [blocks|e]; [|reflexivity]. cbn [bind].
  now destruct (align_blocks detect blocks default_tolerance).
Qed.

Lemma document_chunks_returns (pdf_path : PdfPath) (blocks : list Span) :
  extract_blocks pdf_path = Returns blocks ->
  exists chunks,
    document_chunks detect create_documents extract_blocks pdf_path = Returns chunks.
Proof.
  intros H. unfold document_chunks. rewrite H. cbn [bind].
  destruct (align_blocks_returns blocks default_tolerance) as [pairs ->].
  cbn [bind]. eauto.
Qed.

Lemma document_chunks_raises (pdf_path : PdfPath) (e : exn) :
  extract_blocks pdf_path = Raises e ->
  document_chunks detect create_documents extract_blocks pdf_path = Raises e.
Proof. intros H. unfold document_chunks. now rewrite H. Qed.

Lemma process_loop_raises (pre : list PdfPath) :
  forall (all_chunks : list Chunk) (d : PdfPath) (post : list PdfPath) (e : exn),
    (forall q, In q pre -> exists blocks, extract_blocks q = Returns blocks) ->
    extract_blocks d = Raises e ->
    process_loop detect create_documents extract_blocks all_chunks (pre ++ d :: post)
    = Raises e.
Proof.
  induction pre as [|q pre IH]; intros all_chunks d post e Hpre Hd.
  - cbn [app]. rewrite process_loop_cons, (document_chunks_raises d e Hd). reflexivity.
  - cbn [app]. rewrite process_loop_cons.
    destruct (Hpre q (or_introl eq_refl)) as [blocks Hq].
    destruct (document_chunks_returns q blocks Hq) as [chunks ->]. cbn [bind].
    apply IH; [|exact Hd]. intros r Hr. apply Hpre. now right.
Qed.

Lemma process_loop_returns (pdf_paths : list PdfPath) :
  forall all_chunks : list Chunk,
    (forall q, In q pdf_paths -> exists blocks, extract_blocks q = Returns blocks) ->
    exists per_document,
      Forall2 (fun q chunks =>
                 document_chunks detect create_documents extract_blocks q
                 = Returns chunks) pdf_paths per_document /\
      process_loop detect create_documents extract_blocks all_chunks pdf_paths
      = Returns (all_chunks ++ List.concat per_document).
Proof.
  induction pdf_paths as [|q pdf_paths IH]; intros all_chunks Hall.
  - exists []. split; [constructor|]. cbn. now rewrite app_nil_r.
  - destruct (Hall q (or_introl eq_refl)) as [blocks Hq].
    destruct (document_chunks_returns q blocks Hq) as [chunks Hchunks].
    destruct (IH (all_chunks ++ chunks)) as [per_document [Hdocs Hrun]].
    { intros r Hr. apply Hall. now right. }
    exists (chunks :: per_document). split; [now constructor|].
    rewrite process_loop_cons, Hchunks. cbn [bind List.concat].
    now rewrite Hrun, app_assoc.
Qed.

End DriverFacts.

(** C8, as stated, fails: with one broken file before a sound one the run
    raises, although the sound file alone gives a chunk. *)
Lemma failure_aborts_the_run :
  extract_or_fail broken = Raises (Exception "FileDataError") /\
  process_bilingual_pdfs detect_words whole_splitter extract_or_fail (Some [sound])
  = Returns [make_chunk (lit "b_sound") 1 (lit "EN: intro")] /\
  process_bilingual_pdfs detect_words whole_splitter extract_or_fail
                         (Some [broken; sound])
  = Raises (Exception "FileDataError") /\
  (forall chunks,
      process_bilingual_pdfs detect_words whole_splitter extract_or_fail
                             (Some [broken; sound])
      <> Returns chunks).
Proof.
  repeat split; try reflexivity. intros chunks H. discriminate H.
Qed.

(** C8 (amended). An exception of the extractor is not caught: the run
    raises the exception of the first document that fails, whatever
    documents follow it, and returns no chunk. When no document fails the
    run returns the chunks of all the documents, in order. *)
Theorem driver_propagates_failure
    (detect : str -> outcome str) (create_documents : list str -> list str)
    (extract_blocks : PdfPath -> outcome (list Span)) :
  (forall pre d post e,
      (forall q, In q pre -> exists blocks, extract_blocks q = Returns blocks) ->
      extract_blocks d = Raises e ->
      process_bilingual_pdfs detect create_documents extract_blocks
                             (Some (pre ++ d :: post))
      = Raises e) /\
  (forall pdf_paths,
      (forall q, In q pdf_paths -> exists blocks, extract_blocks q = Returns blocks) ->
      exists per_document,
        Forall2 (fun q chunks =>
                   document_chunks detect create_documents extract_blocks q
                   = Returns chunks) pdf_paths per_document /\
        process_bilingual_pdfs detect create_documents extract_blocks (Some pdf_paths)
        = Returns (List.concat per_document)).
Proof.
  split.
  - intros pre d post e Hpre Hd. unfold process_bilingual_pdfs.
    destruct (pre ++ d :: post) as [|q l] eqn:E.
    + now destruct pre.
    + rewrite <- E. now apply process_loop_raises.
  - intros pdf_paths Hall. unfold process_bilingual_pdfs.
    destruct pdf_paths as [|q l].
    + exists []. split; [constructor | reflexivity].
    + apply (process_loop_returns detect create_documents extract_blocks (q :: l) []).
      exact Hall.
Qed.

Lemma driver_propagates_failure_witness :
  process_bilingual_pdfs detect_words whole_splitter extract_or_fail
                         (Some ([sound] ++ broken :: [sound]))
  = Raises (Exception "FileDataError").
Proof.
  apply (proj1 (driver_propagates_failure detect_words whole_splitter extract_or_fail)).
  - intros q [<- | []]. now exists [span_at (lit "intro") 1 10%float].
  - reflexivity.
Defined.

(** ** The lexicon normalizer *)




Example canonical_text_of_empty_entry :
  canonical_text empty_entry
  = lit "()" ++ newline ++ lit "Literal: " ++ newline ++ lit "Meaning: " ++ newline
    ++ lit "Cultural context: " ++ newline ++ lit "Synonyms/variants: N/A" ++ newline
    ++ lit "Disambiguation questions: N/A".
Proof. reflexivity. Qed.

Example canonical_text_joins_lists :
  canonical_text
    (mkEntry (Some parichay) (Some (lit "parichay")) (Some (lit "introduction"))
             (Some (lit "first visit")) (Some (lit "greeting"))
             (Some [lit "a"; lit "b"]) (Some [lit "q1"; lit "q2"]))
  = parichay ++ lit " (parichay)" ++ newline
    ++ lit "Literal: introduction" ++ newline
    ++ lit "Meaning: first visit" ++ newline
    ++ lit "Cultural context: greeting" ++ newline
    ++ lit "Synonyms/variants: a, b" ++ newline
    ++ lit "Disambiguation questions: q1 | q2".
Proof. reflexivity. Qed.


(** ** More on strings *)

Lemma lstrip_idempotent (s : str) : lstrip (lstrip s) = lstrip s.
Proof.
  induction s as [|c s IH]; [reflexivity|]. simpl.
  destruct (is_space c) eqn:E; [exact IH|]. simpl. now rewrite E.
Qed.

Lemma lstrip_head (s : str) :
  lstrip s = [] \/ exists c r, lstrip s = c :: r /\ is_space c = false.
Proof.
  induction s as [|c s IH]; [now left|]. simpl.
  destruct (is_space c) eqn:E; [exact IH|]. right. now exists c, s.
Qed.

Lemma rstrip_idempotent (s : str) : rstrip (rstrip s) = rstrip s.
Proof. unfold rstrip. now rewrite rev_involutive, lstrip_idempotent. Qed.

Lemma strip_idempotent (s : str) : strip (strip s) = strip s.
Proof.
  unfold strip.
  destruct (lstrip_head s) as [E | [c [r [E Hc]]]]; rewrite E.
  - reflexivity.
  - assert (H : rstrip (c :: r) = c :: rstrip r)
      by apply (rstrip_app_keep [] r c Hc).
    rewrite H. cbn [lstrip]. rewrite Hc, <- H. apply rstrip_idempotent.
Qed.

Lemma truthy_nonempty (s : str) : truthy s = true <-> s <> [].
Proof. destruct s; simpl; split; congruence. Qed.

(** ** The sort of the spans *)

Lemma insert_block_perm (b : Span) (l : list Span) :
  Permutation (insert_block b l) (b :: l).
Proof.
  induction l as [|c l IH]; [reflexivity|]. simpl.
  destruct (key_lt c b); [|reflexivity].
  rewrite IH. apply perm_swap.
Qed.

Lemma sort_blocks_perm (l : list Span) : Permutation (sort_blocks l) l.
Proof.
  induction l as [|b l IH]; [reflexivity|]. simpl.
  rewrite insert_block_perm. now constructor.
Qed.

Lemma SFcompare_antisym (x y : SpecFloat.spec_float) :
  SpecFloat.SFcompare y x = option_map CompOpp (SpecFloat.SFcompare x y).
Proof.
  destruct x as [s1| s1 | | s1 m1 e1], y as [s2 | s2 | | s2 m2 e2];
    simpl; try reflexivity;
    try (destruct s1; reflexivity); try (destruct s2; reflexivity);
    try (destruct s1, s2; reflexivity).
  rewrite (Z.compare_antisym e1 e2).
  destruct s1, s2; try reflexivity;
    destruct (e1 ?= e2)%Z; simpl; try reflexivity;
    now rewrite (Pos.compare_cont_antisym m1 m2 Eq).
Qed.

Lemma float_ltb_asym (a b : float) :
  PrimFloat.ltb a b = true -> PrimFloat.ltb b a = false.
Proof.
  rewrite !FloatAxioms.ltb_spec. unfold SpecFloat.SFltb.
  rewrite (SFcompare_antisym (FloatOps.Prim2SF a) (FloatOps.Prim2SF b)).
  destruct (SpecFloat.SFcompare (FloatOps.Prim2SF a) (FloatOps.Prim2SF b))
    as [[| |]|]; simpl; congruence.
Qed.

Lemma float_eqb_sym (a b : float) : PrimFloat.eqb a b = PrimFloat.eqb b a.
Proof.
  rewrite !FloatAxioms.eqb_spec. unfold SpecFloat.SFeqb.
  rewrite (SFcompare_antisym (FloatOps.Prim2SF a) (FloatOps.Prim2SF b)).
  now destruct (SpecFloat.SFcompare (FloatOps.Prim2SF a) (FloatOps.Prim2SF b))
    as [[| |]|].
Qed.

Lemma key_lt_asym (a b : Span) : key_lt a b = true -> key_lt b a = false.
Proof.
  unfold key_lt. rewrite (Z.eqb_sym (page b) (page a)).
  destruct (Z.eqb_spec (page a) (page b)) as [E|N]; cbn [negb].
  - rewrite (float_eqb_sym (y0 b) (y0 a)).
    destruct (PrimFloat.eqb (y0 a) (y0 b)); cbn [negb].
    + rewrite (float_eqb_sym (x0 b) (x0 a)).
      destruct (PrimFloat.eqb (x0 a) (x0 b)); cbn [negb];
        [discriminate | apply float_ltb_asym].
    + apply float_ltb_asym.
  - intros H. apply Z.ltb_lt in H. apply Z.ltb_ge. lia.
Qed.

Lemma key_lt_pages (a b : Span) : key_lt b a = false -> (page a <= page b)%Z.
Proof.
  unfold key_lt.
  destruct (Z.eqb_spec (page b) (page a)) as [E|N]; cbn [negb]; [lia|].
  intros H. apply Z.ltb_ge in H. exact H.
Qed.

Lemma insert_block_sorted (b : Span) (l : list Span) :
  Sorted (fun a c => key_lt c a = false) l ->
  Sorted (fun a c => key_lt c a = false) (insert_block b l).
Proof.
  induction l as [|c l IH]; intros Hs; simpl.
  - repeat constructor.
  - destruct (key_lt c b) eqn:E.
    + inversion Hs as [|? ? Hl Hhd]; subst.
      constructor; [now apply IH|].
      destruct l as [|d l]; simpl.
      * constructor. now apply key_lt_asym.
      * destruct (key_lt d b); constructor.
        -- now inversion Hhd.
        -- now apply key_lt_asym.
    + constructor; [exact Hs|]. now constructor.
Qed.

Lemma sort_blocks_sorted (l : list Span) :
  Sorted (fun a c => key_lt c a = false) (sort_blocks l).
Proof.
  induction l as [|b l IH]; [constructor|]. simpl. now apply insert_block_sorted.
Qed.

Lemma sort_blocks_pages (l : list Span) :
  StronglySorted (fun a c => (page a <= page c)%Z) (sort_blocks l).
Proof.
  apply Sorted_StronglySorted.
  - intros a b c Hab Hbc. lia.
  - pose proof (sort_blocks_sorted l) as Hs.
    induction Hs as [|a r Hr IH Hhd]; constructor; [exact IH|].
    destruct Hhd as [|c r' Hc]; constructor. now apply key_lt_pages.
Qed.


(** ** The extraction of spans *)

Lemma collect_Forall {A : Type} (P : Span -> Prop)
    (body : A -> outcome (list Span)) (items : list A) :
  (forall item l, body item = Returns l -> Forall P l) ->
  forall l, collect body items = Returns l -> Forall P l.
Proof.
  intros Hbody. induction items as [|item items IH]; intros l H; cbn [collect] in H.
  - injection H as <-. constructor.
  - destruct (body item) as [here|e] eqn:E; [|discriminate]. cbn [bind] in H.
    destruct (collect body items) as [more|e]; [|discriminate]. cbn [bind] in H.
    injection H as <-. apply Forall_app. split; [now apply (Hbody item) | now apply IH].
Qed.

Lemma collect_returns {A : Type} (f : A -> list RawSpan)
    (body : A -> outcome (list Span)) (items : list A) :
  (forall item, (exists l, body item = Returns l) <-> Forall readable (f item)) ->
  ((exists l, collect body items = Returns l) <-> Forall readable (flat_map f items)).
Proof.
  intros Hbody. induction items as [|item items IH]; cbn [collect flat_map].
  - split; [intros _; constructor | intros _; now exists []].
  - rewrite Forall_app, <- IH, <- Hbody. split.
    + intros [l H]. destruct (body item) as [here|e]; [|discriminate]. cbn [bind] in H.
      destruct (collect body items) as [more|e]; [|discriminate]. eauto.
    + intros [[here ->] [more ->]]. cbn [bind]. eauto.
Qed.

Lemma collect_texts {A : Type} (f : A -> list RawSpan)
    (body : A -> outcome (list Span)) (items : list A) :
  (forall item l, body item = Returns l ->
                  map text l = map stripped_text (filter visible (f item))) ->
  forall l, collect body items = Returns l ->
            map text l = map stripped_text (filter visible (flat_map f items)).
Proof.
  intros Hbody. induction items as [|item items IH]; intros l H; cbn [collect] in H.
  - now injection H as <-.
  - destruct (body item) as [here|e] eqn:E; [|discriminate]. cbn [bind] in H.
    destruct (collect body items) as [more|e]; [|discriminate]. cbn [bind] in H.
    injection H as <-. cbn [flat_map].
    rewrite filter_app, !map_app, (Hbody item here E), (IH more eq_refl).
    reflexivity.
Qed.

Lemma flat_map_singleton {A : Type} (l : list A) : flat_map (fun x => [x]) l = l.
Proof. induction l as [|x l IH]; [reflexivity|]. cbn. now rewrite IH. Qed.

Section SpanFacts.

Variable page_num : Z.

Lemma collect_span_spec (span : RawSpan) (l : list Span) :
  collect_span page_num span = Returns l ->
  Forall (fun b => text b <> [] /\ strip (text b) = text b /\ page b = page_num) l.
Proof.
  unfold collect_span. destruct (truthy (strip (get (raw_text span) []))) eqn:E;
    cbn [negb].
  - destruct (raw_bbox span) as [[[[sx0 sy0] sx1] sy1]|]; [|discriminate].
    intros H. injection H as <-. constructor; [|constructor]. cbn [text page].
    repeat split; [now apply truthy_nonempty | apply strip_idempotent].
  - intros H. injection H as <-. constructor.
Qed.

Lemma collect_span_returns (span : RawSpan) :
  (exists l, collect_span page_num span = Returns l) <-> Forall readable [span].
Proof.
  assert (Hone : Forall readable [span] <-> readable span).
  { split; [now inversion 1 | intros; now constructor]. }
  rewrite Hone. unfold collect_span, readable, visible.
  destruct (truthy (strip (get (raw_text span) []))); cbn [negb].
  - destruct (raw_bbox span) as [[[[sx0 sy0] sx1] sy1]|]; split.
    + intros _ _. discriminate.
    + eauto.
    + intros [l H]. discriminate.
    + intros H. now elim (H eq_refl).
  - split; [intros _ H; discriminate H | eauto].
Qed.

Lemma collect_span_texts (span : RawSpan) (l : list Span) :
  collect_span page_num span = Returns l ->
  map text l = map stripped_text (filter visible [span]).
Proof.
  unfold collect_span, visible, stripped_text. cbn [filter].
  destruct (truthy (strip (get (raw_text span) []))); cbn [negb].
  - destruct (raw_bbox span) as [[[[sx0 sy0] sx1] sy1]|]; [|discriminate].
    intros H. now injection H as <-.
  - intros H. now injection H as <-.
Qed.

Lemma collect_page_spec (page_dict : PageDict) (l : list Span) :
  collect_page page_num page_dict = Returns l ->
  Forall (fun b => text b <> [] /\ strip (text b) = text b /\ page b = page_num) l.
Proof.
  apply collect_Forall. intros block l1. apply collect_Forall.
  intros line l2. apply collect_Forall. intros span l3. apply collect_span_spec.
Qed.

Lemma collect_page_returns (page_dict : PageDict) :
  (exists l, collect_page page_num page_dict = Returns l)
  <-> Forall readable (page_raw_spans page_dict).
Proof.
  apply collect_returns. intros block. apply collect_returns. intros line.
  rewrite <- (flat_map_singleton (line_raw_spans line)).
  apply (collect_returns (fun span => [span]) (collect_span page_num)
           (line_raw_spans line)).
  apply collect_span_returns.
Qed.

Lemma collect_page_texts (page_dict : PageDict) (l : list Span) :
  collect_page page_num page_dict = Returns l ->
  map text l = map stripped_text (filter visible (page_raw_spans page_dict)).
Proof.
  apply collect_texts. intros block l1. apply collect_texts. intros line l2.
  rewrite <- (flat_map_singleton (line_raw_spans line)).
  apply (collect_texts (fun span => [span]) (collect_span page_num)
           (line_raw_spans line)).
  intros span l3. apply collect_span_texts.
Qed.

End SpanFacts.

Lemma collect_pages_spec (doc : list PageDict) :
  forall (page_num : Z) (l : list Span),
    collect_pages page_num doc = Returns l ->
    Forall (fun b => text b <> [] /\ strip (text b) = text b /\
                     (page_num <= page b < page_num + Z.of_nat (List.length doc))%Z) l.
Proof.
  induction doc as [|page_dict doc IH]; intros page_num l H; cbn [collect_pages] in H.
  - injection H as <-. constructor.
  - destruct (collect_page page_num page_dict) as [here|e] eqn:E; [|discriminate].
    cbn [bind] in H.
    destruct (collect_pages (page_num + 1) doc) as [more|e] eqn:F; [|discriminate].
    cbn [bind] in H. injection H as <-. apply Forall_app. split.
    + eapply Forall_impl; [|apply (collect_page_spec page_num page_dict here E)].
      cbn [List.length]. intros b [H1 [H2 H3]]. repeat split; trivial; lia.
    + eapply Forall_impl; [|apply (IH (page_num + 1)%Z more F)].
      cbn [List.length]. intros b [H1 [H2 H3]]. repeat split; trivial; lia.
Qed.

Lemma collect_pages_returns (doc : list PageDict) :
  forall page_num : Z,
    (exists l, collect_pages page_num doc = Returns l)
    <-> Forall readable (doc_raw_spans doc).
Proof.
  unfold doc_raw_spans.
  induction doc as [|page_dict doc IH]; intros page_num; cbn [collect_pages flat_map].
  - split; [intros _; constructor | intros _; now exists []].
  - rewrite Forall_app, <- (IH (page_num + 1)%Z),
      <- (collect_page_returns page_num page_dict). split.
    + intros [l H].
      destruct (collect_page page_num page_dict) as [here|e]; [|discriminate].
      cbn [bind] in H.
      destruct (collect_pages (page_num + 1) doc) as [more|e]; [|discriminate]. eauto.
    + intros [[here ->] [more ->]]. cbn [bind]. eauto.
Qed.

Lemma collect_pages_texts (doc : list PageDict) :
  forall (page_num : Z) (l : list Span),
    collect_pages page_num doc = Returns l ->
    map text l = map stripped_text (filter visible (doc_raw_spans doc)).
Proof.
  unfold doc_raw_spans.
  induction doc as [|page_dict doc IH]; intros page_num l H; cbn [collect_pages] in H.
  - now injection H as <-.
  - destruct (collect_page page_num page_dict) as [here|e] eqn:E; [|discriminate].
    cbn [bind] in H.
    destruct (collect_pages (page_num + 1) doc) as [more|e] eqn:F; [|discriminate].
    cbn [bind] in H. injection H as <-. cbn [flat_map].
    rewrite filter_app, !map_app, (collect_page_texts page_num page_dict here E),
      (IH (page_num + 1)%Z more F).
    reflexivity.
Qed.

Lemma extract_blocks_inv
    (fitz_open : PdfPath -> outcome (list PageDict)) (pdf_path : PdfPath)
    (spans : list Span) :
  extract_blocks fitz_open pdf_path = Returns spans ->
  exists doc blocks_all,
    fitz_open pdf_path = Returns doc /\
    collect_pages 1 doc = Returns blocks_all /\
    spans = sort_blocks blocks_all.
Proof.
  unfold extract_blocks. intros H.
  destruct (fitz_open pdf_path) as [doc|e]; [|discriminate]. cbn [bind] in H.
  destruct (collect_pages 1 doc) as [blocks_all|e] eqn:E; [|discriminate].
  cbn [bind] in H. injection H as <-. now exists doc, blocks_all.
Qed.

Lemma Forall_sort_blocks (P : Span -> Prop) (l : list Span) :
  Forall P l -> Forall P (sort_blocks l).
Proof.
  intros H. apply Forall_forall. intros b Hb.
  apply (proj1 (Forall_forall P l) H).
  apply (Permutation_in b (sort_blocks_perm l) Hb).
Qed.

(** X1. Every span that [extract_blocks] returns has a text that is not
    empty and carries no white space at either end. *)
Theorem extract_blocks_texts
    (fitz_open : PdfPath -> outcome (list PageDict)) (pdf_path : PdfPath)
    (spans : list Span) :
  extract_blocks fitz_open pdf_path = Returns spans ->
  Forall (fun b => text b <> [] /\ strip (text b) = text b) spans.
Proof.
  intros H. destruct (extract_blocks_inv fitz_open pdf_path spans H)
    as [doc [blocks_all [_ [Hall ->]]]].
  apply Forall_sort_blocks.
  eapply Forall_impl; [|apply (collect_pages_spec doc 1 blocks_all Hall)].
  intros b [H1 [H2 _]]. now split.
Qed.

Lemma extract_blocks_texts_witness :
  Forall (fun b => text b <> [] /\ strip (text b) = text b)
         [mkSpan (lit "intro") 0%float 10%float [] 1;
          mkSpan parichay 0%float 20%float (lit "Mangal") 1].
Proof.
  apply (extract_blocks_texts sample_reader sound). reflexivity.
Defined.

(** X2. The texts of the spans that [extract_blocks] returns are the
    stripped texts of the spans of the document that have a visible text,
    each once: the sort only changes their order, blank spans are dropped
    and no other span is. *)
Theorem extract_blocks_keeps_visible_spans
    (fitz_open : PdfPath -> outcome (list PageDict)) (pdf_path : PdfPath)
    (doc : list PageDict) (spans : list Span) :
  fitz_open pdf_path = Returns doc ->
  extract_blocks fitz_open pdf_path = Returns spans ->
  Permutation (map text spans)
              (map stripped_text (filter visible (doc_raw_spans doc))) /\
  List.length spans = List.length (filter visible (doc_raw_spans doc)).
Proof.
  intros Hdoc H. destruct (extract_blocks_inv fitz_open pdf_path spans H)
    as [doc' [blocks_all [Hdoc' [Hall ->]]]].
  rewrite Hdoc in Hdoc'. injection Hdoc' as <-.
  assert (Hperm : Permutation (map text (sort_blocks blocks_all))
                    (map stripped_text (filter visible (doc_raw_spans doc)))).
  { rewrite <- (collect_pages_texts doc 1 blocks_all Hall).
    apply Permutation_map, sort_blocks_perm. }
  split; [exact Hperm|].
  apply Permutation_length in Hperm. now rewrite !length_map in Hperm.
Qed.

Lemma extract_blocks_keeps_visible_spans_witness :
  Permutation (map text [mkSpan (lit "intro") 0%float 10%float [] 1;
                         mkSpan parichay 0%float 20%float (lit "Mangal") 1])
              (map stripped_text (filter visible (doc_raw_spans sample_doc))) /\
  List.length [mkSpan (lit "intro") 0%float 10%float [] 1;
               mkSpan parichay 0%float 20%float (lit "Mangal") 1]
  = List.length (filter visible (doc_raw_spans sample_doc)).
Proof.
  apply (extract_blocks_keeps_visible_spans sample_reader sound sample_doc);
    reflexivity.
Defined.

(** X3. When no coordinate is NaN, the spans that [extract_blocks] returns
    are in reading order: no span has a key [(page, y0, x0)] below the key
    of the span before it, the pages never decrease, and every page number
    lies between 1 and the number of pages of the document. *)
Theorem extract_blocks_reading_order
    (fitz_open : PdfPath -> outcome (list PageDict)) (pdf_path : PdfPath)
    (doc : list PageDict) (spans : list Span) :
  fitz_open pdf_path = Returns doc ->
  extract_blocks fitz_open pdf_path = Returns spans ->
  Forall finite_position spans ->
  Sorted (fun a c => key_lt c a = false) spans /\
  StronglySorted (fun a c => (page a <= page c)%Z) spans /\
  Forall (fun b => (1 <= page b <= Z.of_nat (List.length doc))%Z) spans.
Proof.
  intros Hdoc H _. destruct (extract_blocks_inv fitz_open pdf_path spans H)
    as [doc' [blocks_all [Hdoc' [Hall ->]]]].
  rewrite Hdoc in Hdoc'. injection Hdoc' as <-.
  split; [apply sort_blocks_sorted|]. split; [apply sort_blocks_pages|].
  apply Forall_sort_blocks.
  eapply Forall_impl; [|apply (collect_pages_spec doc 1 blocks_all Hall)].
  intros b [_ [_ Hpage]]. lia.
Qed.

Lemma extract_blocks_reading_order_witness :
  Sorted (fun a c => key_lt c a = false)
         [mkSpan (lit "intro") 0%float 10%float [] 1;
          mkSpan parichay 0%float 20%float (lit "Mangal") 1] /\
  StronglySorted (fun a c => (page a <= page c)%Z)
         [mkSpan (lit "intro") 0%float 10%float [] 1;
          mkSpan parichay 0%float 20%float (lit "Mangal") 1] /\
  Forall (fun b => (1 <= page b <= Z.of_nat (List.length sample_doc))%Z)
         [mkSpan (lit "intro") 0%float 10%float [] 1;
          mkSpan parichay 0%float 20%float (lit "Mangal") 1].
Proof.
  apply (extract_blocks_reading_order sample_reader sound sample_doc);
    [reflexivity | reflexivity |].
  repeat constructor.
Defined.

(** X4. [extract_blocks] returns exactly when the reader opens the file and
    every span with a visible text has a bounding box; a span without a
    bounding box is harmless when its text is blank, since it is skipped
    before the box is read. *)
Theorem extract_blocks_returns_iff
    (fitz_open : PdfPath -> outcome (list PageDict)) (pdf_path : PdfPath) :
  (exists spans, extract_blocks fitz_open pdf_path = Returns spans)
  <-> (exists doc, fitz_open pdf_path = Returns doc /\
                   Forall readable (doc_raw_spans doc)).
Proof.
  unfold extract_blocks. split.
  - intros [spans H].
    destruct (fitz_open pdf_path) as [doc|e]; [|discriminate]. cbn [bind] in H.
    exists doc. split; [reflexivity|].
    apply (collect_pages_returns doc 1).
    destruct (collect_pages 1 doc) as [blocks_all|e]; [eauto | discriminate].
  - intros [doc [-> Hread]]. cbn [bind].
    apply (collect_pages_returns doc 1) in Hread. destruct Hread as [l ->].
    cbn [bind]. eauto.
Qed.

Lemma extract_blocks_returns_iff_witness :
  exists spans, extract_blocks sample_reader sound = Returns spans.
Proof.
  apply (proj2 (extract_blocks_returns_iff sample_reader sound)).
  exists sample_doc. split; [reflexivity|].
  repeat constructor; intros H; try discriminate H; discriminate.
Defined.

Example extract_blocks_needs_the_box :
  extract_blocks
    (fun _ => Returns [mkPageDict
                         (Some [mkRawBlock
                                  (Some [mkRawLine
                                           (Some [mkRawSpan (Some (lit "intro"))
                                                            None None])])])])
    sound
  = Raises (Exception "KeyError").
Proof. reflexivity. Qed.

Lemma formatted_blocks_length (pairs : list Pair) :
  Forall one_side_present pairs ->
  List.length (formatted_blocks pairs) = List.length pairs.
Proof.
  induction 1 as [|p pairs Hp _ IH]; [reflexivity|]. cbn [formatted_blocks].
  destruct (format_block p) as [blk|] eqn:E; [cbn; now rewrite IH|].
  apply format_block_None in E. destruct E as [E1 E2].
  destruct Hp as [Hp|Hp]; now elim Hp.
Qed.

(** X5. The spans of [extract_blocks] meet what the later stages need: for
    every detector and tolerance [align_blocks] returns on them, every pair
    has a text on one side at least and pages that agree with its texts, and
    [create_bilingual_chunks] formats every pair, skipping none. *)
Theorem extracted_spans_align_well
    (fitz_open : PdfPath -> outcome (list PageDict))
    (detect : str -> outcome str) (tol : float)
    (pdf_path : PdfPath) (spans : list Span) :
  extract_blocks fitz_open pdf_path = Returns spans ->
  exists pairs,
    align_blocks detect spans tol = Returns pairs /\
    Forall one_side_present pairs /\
    Forall pages_consistent pairs /\
    List.length (formatted_blocks pairs) = List.length pairs.
Proof.
  intros H. destruct (extract_blocks_inv fitz_open pdf_path spans H)
    as [doc [blocks_all [_ [Hall ->]]]].
  destruct (align_blocks_Forall detect tol
              (fun pr => one_side_present pr /\ pages_consistent pr)
              (fun b => text b <> []))
    with (blocks := sort_blocks blocks_all) as [pairs [Hret Hpairs]].
  - intros p Hp. split; [now left|]. unfold pages_consistent; cbn.
    intuition congruence.
  - intros b Hb. split; [now right|]. unfold pages_consistent; cbn.
    intuition congruence.
  - intros p b Hp Hb Hpage. split; [now left|]. unfold pages_consistent; cbn.
    intuition congruence.
  - apply Forall_sort_blocks.
    eapply Forall_impl; [|apply (collect_pages_spec doc 1 blocks_all Hall)].
    now intros b [H1 _].
  - exists pairs. split; [exact Hret|].
    assert (H1 : Forall one_side_present pairs)
      by (eapply Forall_impl; [|exact Hpairs]; now intros pr [? _]).
    assert (H2 : Forall pages_consistent pairs)
      by (eapply Forall_impl; [|exact Hpairs]; now intros pr [_ ?]).
    repeat split; trivial. now apply formatted_blocks_length.
Qed.

Lemma extracted_spans_align_well_witness :
  exists pairs,
    align_blocks detect_words
      [mkSpan (lit "intro") 0%float 10%float [] 1;
       mkSpan parichay 0%float 20%float (lit "Mangal") 1] default_tolerance
    = Returns pairs /\
    Forall one_side_present pairs /\
    Forall pages_consistent pairs /\
    List.length (formatted_blocks pairs) = List.length pairs.
Proof.
  apply (extracted_spans_align_well sample_reader detect_words default_tolerance sound).
  reflexivity.
Defined.

(** ** More on the aligner *)

Section AlignerMore.

Variable detect : str -> outcome str.
Variable tol : float.

Lemma pair_origin_app (pre more : list Span) (pr : Pair) :
  pair_origin detect tol pre pr -> pair_origin detect tol (pre ++ more) pr.
Proof.
  intros [[p [Hin H]] | [[b [Hin H]] | H]].
  - left. exists p. split; [apply in_or_app; now left | exact H].
  - right. left. exists b. split; [apply in_or_app; now left | exact H].
  - right. right.
    destruct H as [p [b [before [between [after [-> H]]]]]].
    exists p, b, before, between, (after ++ more). split; [|exact H].
    rewrite <- !app_assoc. cbn [app]. rewrite <- !app_assoc. reflexivity.
Qed.

Lemma align_loop_origin (rest : list Span) :
  forall (pre : list Span) (ps : list Pair) (pend : option Span),
    Forall (pair_origin detect tol pre) ps ->
    (forall p, pend = Some p ->
               (exists before between, pre = before ++ p :: between) /\
               detect_language detect (text p) = Returns en) ->
    exists ps' pend',
      align_loop detect tol (ps, pend) rest = Returns (ps', pend') /\
      Forall (pair_origin detect tol (pre ++ rest)) ps' /\
      (forall p, pend' = Some p ->
                 In p (pre ++ rest) /\
                 detect_language detect (text p) = Returns en).
Proof.
  induction rest as [|b rest IH]; intros pre ps pend Hps Hpend.
  - exists ps, pend. rewrite app_nil_r. split; [reflexivity|]. split; [exact Hps|].
    intros p Hp. destruct (Hpend p Hp) as [[before [between ->]] Hen].
    split; [|exact Hen]. apply in_or_app. right. now left.
  - assert (Hmono : Forall (pair_origin detect tol (pre ++ [b])) ps).
    { eapply Forall_impl; [|exact Hps]. intros pr. apply pair_origin_app. }
    assert (Hb : In b (pre ++ [b])) by (apply in_or_app; right; now left).
    replace (pre ++ b :: rest) with ((pre ++ [b]) ++ rest)
      by now rewrite <- app_assoc.
    cbn [align_loop].
    destruct (detect_language_cases detect (text b)) as [H|H].
    + rewrite (align_step_hi detect tol ps pend b H).
      assert (Horphan : Forall (pair_origin detect tol (pre ++ [b]))
                               (ps ++ [orphan_hi b])).
      { apply Forall_app. split; [exact Hmono|]. constructor; [|constructor].
        right. left. now exists b. }
      assert (Hkeep : forall p, pend = Some p ->
                (exists before between, pre ++ [b] = before ++ p :: between) /\
                detect_language detect (text p) = Returns en).
      { intros p Hp. destruct (Hpend p Hp) as [[before [between ->]] Hen].
        split; [|exact Hen]. exists before, (between ++ [b]).
        now rewrite <- app_assoc. }
      destruct pend as [p|]; [|cbn [bind]; now apply IH].
      destruct (Z.eqb (page b) (page p) && within_tolerance b p tol) eqn:E;
        cbn [bind]; [|now apply IH].
      apply andb_true_iff in E. destruct E as [E1 E2]. apply Z.eqb_eq in E1.
      apply IH; [|discriminate].
      apply Forall_app. split; [exact Hmono|]. constructor; [|constructor].
      right. right. destruct (Hpend p eq_refl) as [[before [between ->]] Hen].
      exists p, b, before, between, []. split; [now rewrite <- app_assoc|].
      now repeat split.
    + rewrite (align_step_en detect tol ps pend b H). cbn [bind]. apply IH.
      * apply Forall_app. split; [exact Hmono|].
        destruct pend as [p|]; cbn [flushed]; [|constructor].
        constructor; [|constructor]. left. exists p.
        destruct (Hpend p eq_refl) as [[before [between ->]] Hen].
        split; [|now split].
        apply in_or_app. left. apply in_or_app. right. now left.
      * intros p Hp. injection Hp as <-. split; [|exact H].
        exists pre, []. reflexivity.
Qed.

Lemma align_loop_shift (blocks : list Span) :
  forall (ps : list Pair) (pend : option Span),
    align_loop detect tol (ps, pend) blocks
    = bind (align_loop detect tol ([], pend) blocks)
           (fun st => Returns (ps ++ fst st, snd st)).
Proof.
  induction blocks as [|b blocks IH]; intros ps pend.
  - cbn. now rewrite app_nil_r.
  - cbn [align_loop].
    destruct (detect_language_cases detect (text b)) as [H|H].
    + rewrite !(align_step_hi detect tol _ pend b H).
      destruct pend as [p|].
      * destruct (Z.eqb (page b) (page p) && within_tolerance b p tol); cbn [bind];
          rewrite (IH (ps ++ _)), (IH ([] ++ _));
          destruct (align_loop detect tol ([], _) blocks) as [[qs pend']|e];
          cbn [bind fst snd app]; try reflexivity; now rewrite <- app_assoc.
      * cbn [bind]. rewrite (IH (ps ++ _)), (IH ([] ++ _)).
        destruct (align_loop detect tol ([], None) blocks) as [[qs pend']|e];
          cbn [bind fst snd app]; try reflexivity; now rewrite <- app_assoc.
    + rewrite !(align_step_en detect tol _ pend b H). cbn [bind].
      rewrite (IH (ps ++ _)), (IH ([] ++ _)).
      destruct (align_loop detect tol ([], Some b) blocks) as [[qs pend']|e];
        cbn [bind fst snd app]; try reflexivity; now rewrite <- app_assoc.
Qed.

Lemma align_loop_all_en (blocks : list Span) :
  forall (ps : list Pair) (pend : option Span),
    Forall (fun b => detect_language detect (text b) = Returns en) blocks ->
    exists st,
      align_loop detect tol (ps, pend) blocks = Returns st /\
      align_flush st = ps ++ flushed pend ++ map orphan_en blocks.
Proof.
  induction blocks as [|b blocks IH]; intros ps pend Hall.
  - exists (ps, pend). split; [reflexivity|]. unfold align_flush. cbn [fst snd map].
    rewrite app_nil_r. now destruct pend; cbn; rewrite ?app_nil_r.
  - inversion Hall as [|? ? Hb Hrest]; subst. cbn [align_loop].
    rewrite (align_step_en detect tol ps pend b Hb). cbn [bind].
    destruct (IH (ps ++ flushed pend) (Some b) Hrest) as [st [Hrun Hflush]].
    exists st. split; [exact Hrun|]. rewrite Hflush. cbn [flushed map].
    now rewrite <- !app_assoc.
Qed.

Lemma align_loop_unpairable (hs : list Span) :
  forall (ps : list Pair) (pend : option Span),
    Forall (fun b => detect_language detect (text b) = Returns hi /\
                     forall p, pend = Some p -> unpairable tol p b) hs ->
    align_loop detect tol (ps, pend) hs = Returns (ps ++ map orphan_hi hs, pend).
Proof.
  induction hs as [|b hs IH]; intros ps pend Hall.
  - cbn. now rewrite app_nil_r.
  - inversion Hall as [|? ? [Hb Hun] Hrest]; subst. cbn [align_loop].
    rewrite (align_step_hi detect tol ps pend b Hb).
    assert (Hnext : align_loop detect tol (ps ++ [orphan_hi b], pend) hs
                    = Returns (ps ++ map orphan_hi (b :: hs), pend)).
    { rewrite (IH _ pend Hrest). cbn [map]. now rewrite <- app_assoc. }
    destruct pend as [p|]; [|exact Hnext].
    unfold unpairable in Hun. rewrite (Hun p eq_refl). exact Hnext.
Qed.

Lemma align_blocks_total_count (blocks : list Span) :
  exists pairs,
    align_blocks detect blocks tol = Returns pairs /\
    List.length pairs + List.length (filter is_paired pairs) = List.length blocks.
Proof.
  destruct (align_loop_sides detect tol blocks [] None)
    as [ps [pend [Hrun [Hen Hhi]]]].
  destruct (align_blocks_Forall detect tol has_page (fun _ => True))
    with (blocks := blocks) as [pairs [Hret Hshape]].
  - intros p _. left. discriminate.
  - intros b _. right. discriminate.
  - intros p b _ _ _. left. discriminate.
  - now apply Forall_forall.
  - exists pairs. split; [exact Hret|].
    assert (Hpairs : pairs = ps ++ flushed pend).
    { unfold align_blocks, align_init in Hret. rewrite Hrun in Hret.
      cbn [bind] in Hret. injection Hret as <-.
      unfold align_flush. cbn [fst snd]. destruct pend; cbn; [reflexivity|].
      now rewrite app_nil_r. }
    rewrite (pairs_count pairs Hshape), Hpairs, en_side_app, hi_side_app,
      en_side_flushed, hi_side_flushed, app_nil_r, Hen, Hhi.
    cbn [en_side hi_side flat_map slot_keys app].
    rewrite !length_map. apply classified_partition.
Qed.

End AlignerMore.

(** X6. Every pair that [align_blocks] returns comes from the input: it is
    the English-only pair of a span classified English, the Hindi-only pair
    of a span classified Hindi, or the pair of an English span and a Hindi
    span that comes later in the input, on the same page and within the
    tolerance. A Hindi span is never paired with an English span that
    follows it, nor across pages, nor beyond the tolerance. *)
Theorem align_blocks_pairs_origin
    (detect : str -> outcome str) (blocks : list Span) (tol : float) :
  exists pairs,
    align_blocks detect blocks tol = Returns pairs /\
    Forall (pair_origin detect tol blocks) pairs.
Proof.
  destruct (align_loop_origin detect tol blocks [] [] None)
    as [ps [pend [Hrun [Hps Hpend]]]]; [constructor | discriminate |].
  cbn [app] in Hps, Hpend.
  unfold align_blocks, align_init. rewrite Hrun. cbn [bind].
  eexists. split; [reflexivity|].
  unfold align_flush. cbn [fst snd]. destruct pend as [p|]; [|exact Hps].
  apply Forall_app. split; [exact Hps|]. constructor; [|constructor].
  left. exists p. destruct (Hpend p eq_refl) as [Hin Hen]. now repeat split.
Qed.

(** X7. [align_blocks] returns at most one pair per span and at least one
    pair for every two spans. *)
Theorem align_blocks_length_bounds
    (detect : str -> outcome str) (blocks : list Span) (tol : float) :
  exists pairs,
    align_blocks detect blocks tol = Returns pairs /\
    List.length pairs <= List.length blocks <= 2 * List.length pairs.
Proof.
  destruct (align_blocks_total_count detect tol blocks) as [pairs [Hret Hcount]].
  exists pairs. split; [exact Hret|].
  pose proof (filter_length_le is_paired pairs). lia.
Qed.

(** X8. A document in one language gives one one-sided pair per span, in
    the order of the spans: English-only pairs when every span is classified
    English, Hindi-only pairs when every span is classified Hindi. *)
Theorem align_blocks_one_language
    (detect : str -> outcome str) (blocks : list Span) (tol : float) :
  (Forall (fun b => detect_language detect (text b) = Returns en) blocks ->
   align_blocks detect blocks tol = Returns (map orphan_en blocks)) /\
  (Forall (fun b => detect_language detect (text b) = Returns hi) blocks ->
   align_blocks detect blocks tol = Returns (map orphan_hi blocks)).
Proof.
  split; intros Hall; unfold align_blocks, align_init.
  - destruct (align_loop_all_en detect tol blocks [] None Hall) as [st [-> Hflush]].
    cbn [bind]. now rewrite Hflush.
  - rewrite (align_loop_unpairable detect tol blocks [] None).
    + reflexivity.
    + eapply Forall_impl; [|exact Hall]. intros b Hb. split; [exact Hb|].
      intros p Hp. discriminate Hp.
Qed.

Lemma align_blocks_one_language_witness :
  align_blocks detect_words
    [span_at (lit "intro") 1 10%float; span_at (lit "follow-up") 2 10%float]
    default_tolerance
  = Returns (map orphan_en
               [span_at (lit "intro") 1 10%float;
                span_at (lit "follow-up") 2 10%float]) /\
  align_blocks detect_words
    [span_at parichay 1 10%float; span_at parichay 1 20%float] default_tolerance
  = Returns (map orphan_hi
               [span_at parichay 1 10%float; span_at parichay 1 20%float]).
Proof.
  split.
  - apply (proj1 (align_blocks_one_language detect_words
                    [span_at (lit "intro") 1 10%float;
                     span_at (lit "follow-up") 2 10%float] default_tolerance)).
    repeat constructor.
  - apply (proj2 (align_blocks_one_language detect_words
                    [span_at parichay 1 10%float; span_at parichay 1 20%float]
                    default_tolerance)).
    repeat constructor.
Defined.

(** X9. Alignment can be cut where nothing is pending: when the scan of
    [pre] ends with an empty slot, the pairs of [pre ++ post] are the pairs
    of [pre] followed by the pairs of [post]. *)
Theorem align_blocks_app
    (detect : str -> outcome str) (tol : float)
    (pre post : list Span) (ps : list Pair) :
  align_loop detect tol align_init pre = Returns (ps, None) ->
  align_blocks detect pre tol = Returns ps /\
  exists pairs,
    align_blocks detect post tol = Returns pairs /\
    align_blocks detect (pre ++ post) tol = Returns (ps ++ pairs).
Proof.
  intros Hpre. split.
  - unfold align_blocks. now rewrite Hpre.
  - destruct (align_loop_returns detect tol post align_init) as [[qs pend] Hpost].
    exists (align_flush (qs, pend)). unfold align_blocks.
    rewrite Hpost, align_loop_app, Hpre. cbn [bind].
    rewrite align_loop_shift. unfold align_init in Hpost. rewrite Hpost.
    cbn [bind fst snd]. split; [reflexivity|].
    unfold align_flush. cbn [fst snd]. destruct pend; [|reflexivity].
    now rewrite <- app_assoc.
Qed.

Lemma align_blocks_app_witness :
  align_blocks detect_words
    [span_at (lit "intro") 1 10%float; span_at parichay 1 20%float]
    default_tolerance
  = Returns [paired (span_at (lit "intro") 1 10%float)
                    (span_at parichay 1 20%float)] /\
  exists pairs,
    align_blocks detect_words [span_at (lit "follow-up") 1 30%float]
                 default_tolerance = Returns pairs /\
    align_blocks detect_words
      ([span_at (lit "intro") 1 10%float; span_at parichay 1 20%float]
         ++ [span_at (lit "follow-up") 1 30%float]) default_tolerance
    = Returns ([paired (span_at (lit "intro") 1 10%float)
                       (span_at parichay 1 20%float)] ++ pairs).
Proof.
  apply (align_blocks_app detect_words default_tolerance
           [span_at (lit "intro") 1 10%float; span_at parichay 1 20%float]
           [span_at (lit "follow-up") 1 30%float]).
  reflexivity.
Defined.

(** X10. An English span that finds no partner is not emitted at its place
    in the reading order: when it is followed by Hindi spans that it cannot
    take (another page, or beyond the tolerance), the Hindi-only pairs come
    first and the English-only pair comes last. *)
Theorem align_blocks_unpaired_english_comes_last
    (detect : str -> outcome str) (tol : float) (p : Span) (hs : list Span) :
  detect_language detect (text p) = Returns en ->
  Forall (fun b => detect_language detect (text b) = Returns hi /\
                   unpairable tol p b) hs ->
  align_blocks detect (p :: hs) tol = Returns (map orphan_hi hs ++ [orphan_en p]).
Proof.
  intros Hp Hall. unfold align_blocks, align_init. cbn [align_loop].
  rewrite (align_step_en detect tol [] None p Hp). cbn [bind flushed app].
  rewrite (align_loop_unpairable detect tol hs [] (Some p)).
  - reflexivity.
  - eapply Forall_impl; [|exact Hall]. intros b [Hb Hun]. split; [exact Hb|].
    intros q Hq. now injection Hq as <-.
Qed.

Lemma align_blocks_unpaired_english_comes_last_witness :
  align_blocks detect_words
    [span_at (lit "intro") 1 700%float; span_at parichay 2 10%float;
     span_at parichay 2 20%float] default_tolerance
  = Returns (map orphan_hi [span_at parichay 2 10%float; span_at parichay 2 20%float]
             ++ [orphan_en (span_at (lit "intro") 1 700%float)]).
Proof.
  apply (align_blocks_unpaired_english_comes_last detect_words default_tolerance
           (span_at (lit "intro") 1 700%float)
           [span_at parichay 2 10%float; span_at parichay 2 20%float]).
  - reflexivity.
  - repeat constructor.
Defined.

(** ** Chunk identifiers *)

Lemma lit_inj (a b : string) : lit a = lit b -> a = b.
Proof.
  unfold lit. intros H.
  rewrite <- (string_of_list_ascii_of_string a), <- (string_of_list_ascii_of_string b).
  f_equal. revert H.
  generalize (list_ascii_of_string a) (list_ascii_of_string b).
  induction l as [|x l IH]; intros [|y l'] H; try discriminate; [reflexivity|].
  cbn [map] in H. injection H as Hxy Hl. f_equal; [|now apply IH].
  rewrite <- (ascii_N_embedding x), <- (ascii_N_embedding y). now rewrite Hxy.
Qed.

Lemma to_uint_nonnil (n : nat) : Nat.to_uint n <> Decimal.Nil.
Proof.
  rewrite <- (DecimalNat.Unsigned.of_to n) at 1. rewrite DecimalNat.Unsigned.to_of.
  unfold Decimal.unorm. destruct (Decimal.nzhead (Nat.to_uint n)); discriminate.
Qed.

Lemma str_of_nat_inj (i j : nat) : str_of_nat i = str_of_nat j -> i = j.
Proof.
  unfold str_of_nat. intros H. apply lit_inj in H.
  apply DecimalNat.Unsigned.to_uint_inj.
  apply (f_equal NilZero.uint_of_string) in H.
  rewrite !NilZero.usu in H by apply to_uint_nonnil. now injection H.
Qed.

Lemma uint_digits (d : Decimal.uint) :
  Forall (fun c => is_digit c = true) (lit (NilEmpty.string_of_uint d)).
Proof. induction d; cbn; constructor; trivial. Qed.

Lemma str_of_nat_digits (i : nat) : Forall (fun c => is_digit c = true) (str_of_nat i).
Proof.
  unfold str_of_nat, NilZero.string_of_uint.
  destruct (Nat.to_uint i) eqn:E; try (rewrite <- E; apply uint_digits).
  now elim (to_uint_nonnil i).
Qed.

Lemma split_at_first_other (P : char -> bool) (u v r r' : str) (x y : char) :
  Forall (fun c => P c = true) u -> Forall (fun c => P c = true) v ->
  P x = false -> P y = false ->
  u ++ x :: r = v ++ y :: r' -> u = v /\ x = y /\ r = r'.
Proof.
  intros Hu. revert v. induction Hu as [|c u Hc Hu IH]; intros v Hv Hx Hy H.
  - destruct Hv as [|d v Hd Hv]; cbn in H.
    + injection H as -> ->. now repeat split.
    + injection H as -> _. congruence.
  - destruct Hv as [|d v Hd Hv]; cbn in H.
    + injection H as -> _. congruence.
    + injection H as -> H. destruct (IH v Hv Hx Hy H) as [-> [-> ->]].
      now repeat split.
Qed.

Lemma chunk_id_inj (s1 s2 : str) (i j : nat) :
  s1 ++ lit "_chunk_" ++ str_of_nat i = s2 ++ lit "_chunk_" ++ str_of_nat j ->
  s1 = s2 /\ i = j.
Proof.
  intros H. apply (f_equal (@rev char)) in H.
  change (lit "_chunk_") with (lit "_chunk" ++ [95%N]) in H.
  rewrite !rev_app_distr in H. cbn [rev app] in H.
  rewrite <- !app_assoc in H. cbn [app] in H.
  destruct (split_at_first_other is_digit _ _ _ _ 95%N 95%N
              (Forall_rev (str_of_nat_digits i))
              (Forall_rev (str_of_nat_digits j))
              eq_refl eq_refl H) as [Hd [_ Hs]].
  split.
  - apply (f_equal (@rev char)) in Hs.
    rewrite !rev_app_distr, !rev_involutive in Hs.
    now apply app_inv_tail in Hs.
  - apply str_of_nat_inj. apply (f_equal (@rev char)) in Hd.
    now rewrite !rev_involutive in Hd.
Qed.

Lemma label_chunks_ids (source_name : str) (docs : list str) :
  forall i : nat,
    map chunk_id (label_chunks source_name i docs)
    = map (fun k => source_name ++ lit "_chunk_" ++ str_of_nat k)
          (seq i (List.length docs)).
Proof.
  induction docs as [|d docs IH]; intros i; [reflexivity|].
  cbn [label_chunks map List.length seq]. now rewrite IH.
Qed.

Lemma create_bilingual_chunks_ids
    (create_documents : list str -> list str) (pairs : list Pair) (source_name : str) :
  exists n,
    map chunk_id (create_bilingual_chunks create_documents pairs source_name)
    = map (fun k => source_name ++ lit "_chunk_" ++ str_of_nat k) (seq 1 n).
Proof.
  unfold create_bilingual_chunks. destruct (formatted_blocks pairs) as [|blk blks].
  - now exists 0.
  - eexists. apply label_chunks_ids.
Qed.

(** X11. The chunks of one call of [create_bilingual_chunks] have pairwise
    different identifiers. *)
Theorem chunk_ids_distinct
    (create_documents : list str -> list str) (pairs : list Pair) (source_name : str) :
  NoDup (map chunk_id (create_bilingual_chunks create_documents pairs source_name)).
Proof.
  destruct (create_bilingual_chunks_ids create_documents pairs source_name) as [n ->].
  apply Finite.Injective_map_NoDup; [|apply seq_NoDup].
  intros i j H. now apply chunk_id_inj in H.
Qed.

Lemma label_chunks_In_make (source_name : str) (docs : list str) :
  forall (i : nat) (c : Chunk),
    In c (label_chunks source_name i docs) ->
    exists d k, In d docs /\ c = make_chunk source_name k d.
Proof.
  induction docs as [|d docs IH]; intros i c H; [contradiction|].
  destruct H as [<- | H].
  - exists d, i. split; [now left | reflexivity].
  - destruct (IH (S i) c H) as [d' [k [Hd Hc]]]. exists d', k. split; [now right | exact Hc].
Qed.

Lemma create_bilingual_chunks_In
    (create_documents : list str -> list str) (pairs : list Pair)
    (source_name : str) (c : Chunk) :
  In c (create_bilingual_chunks create_documents pairs source_name) ->
  exists d k, In d (create_documents (formatted_blocks pairs)) /\
              c = make_chunk source_name k d.
Proof.
  unfold create_bilingual_chunks.
  destruct (formatted_blocks pairs) as [|blk blks]; [contradiction|].
  apply label_chunks_In_make.
Qed.

Lemma lstrip_length (s : str) : List.length (lstrip s) <= List.length s.
Proof.
  induction s as [|c s IH]; [reflexivity|]. simpl.
  destruct (is_space c); simpl; lia.
Qed.

Lemma strip_length (s : str) : List.length (strip s) <= List.length s.
Proof.
  unfold strip, rstrip. rewrite length_rev.
  pose proof (lstrip_length (rev (lstrip s))) as H1. rewrite length_rev in H1.
  pose proof (lstrip_length s). lia.
Qed.

(** X12. When the stems of the files are pairwise different, a run of
    [process_bilingual_pdfs] that returns gives chunks whose identifiers
    are pairwise different over the whole run, and every chunk names the
    stem of one of the files as its source. *)
Theorem run_chunk_ids_distinct
    (detect : str -> outcome str) (create_documents : list str -> list str)
    (extract : PdfPath -> outcome (list Span))
    (pdf_paths : list PdfPath) (chunks : list Chunk) :
  process_bilingual_pdfs detect create_documents extract (Some pdf_paths)
  = Returns chunks ->
  NoDup (map stem pdf_paths) ->
  NoDup (map chunk_id chunks) /\
  Forall (fun c => In (source c) (map stem pdf_paths)) chunks.
Proof.
  intros Hrun Hstems.
  assert (Hloop : process_loop detect create_documents extract [] pdf_paths
                  = Returns chunks).
  { unfold process_bilingual_pdfs in Hrun. now destruct pdf_paths. }
  clear Hrun.
  assert (Hgen : forall paths acc out,
    process_loop detect create_documents extract acc paths = Returns out ->
    NoDup (map stem paths) ->
    NoDup (map chunk_id acc) ->
    (forall c, In c acc ->
       exists s k, chunk_id c = s ++ lit "_chunk_" ++ str_of_nat k /\
                   source c = s /\ ~ In s (map stem paths)) ->
    NoDup (map chunk_id out) /\
    (forall c, In c out -> In c acc \/ In (source c) (map stem paths))).
  { induction paths as [|q paths IH]; intros acc out Hout Hnd Hacc Hform.
    - cbn in Hout. injection Hout as <-. split; [exact Hacc | now left].
    - cbn [process_loop] in Hout.
      destruct (extract q) as [blocks|e]; [|discriminate]. cbn [bind] in Hout.
      destruct (align_blocks detect blocks default_tolerance) as [pairs|e];
        [|discriminate]. cbn [bind] in Hout.
      cbn [map] in Hnd. inversion Hnd as [|? ? Hq Hrest]; subst.
      set (cs := create_bilingual_chunks create_documents pairs (stem q)) in *.
      assert (Hcs : forall c, In c cs ->
                exists k, chunk_id c = stem q ++ lit "_chunk_" ++ str_of_nat k /\
                          source c = stem q).
      { intros c Hc. apply create_bilingual_chunks_In in Hc.
        destruct Hc as [d [k [_ ->]]]. now exists k. }
      destruct (IH (acc ++ cs) out Hout Hrest) as [Hnodup Hsrc].
      + rewrite map_app. apply NoDup_app; [exact Hacc| |].
        * destruct (create_bilingual_chunks_ids create_documents pairs (stem q))
            as [n Hids]. fold cs in Hids. rewrite Hids.
          apply Finite.Injective_map_NoDup; [|apply seq_NoDup].
          intros i j H. now apply chunk_id_inj in H.
        * intros id Hin1 Hin2.
          apply in_map_iff in Hin1. destruct Hin1 as [c1 [<- Hc1]].
          apply in_map_iff in Hin2. destruct Hin2 as [c2 [Heq Hc2]].
          destruct (Hform c1 Hc1) as [s [k1 [Hid1 [_ Hs]]]].
          destruct (Hcs c2 Hc2) as [k2 [Hid2 _]].
          rewrite Hid1, Hid2 in Heq. apply chunk_id_inj in Heq.
          destruct Heq as [Heq _]. apply Hs. rewrite <- Heq. now left.
      + intros c Hc. apply in_app_or in Hc. destruct Hc as [Hc|Hc].
        * destruct (Hform c Hc) as [s [k [Hid [Hsrc' Hs]]]].
          exists s, k. repeat split; trivial. intros Hin. apply Hs. now right.
        * destruct (Hcs c Hc) as [k [Hid Hsrc']].
          exists (stem q), k. now repeat split.
      + split; [exact Hnodup|]. intros c Hc.
        destruct (Hsrc c Hc) as [Hin|Hin].
        * apply in_app_or in Hin. destruct Hin as [Hin|Hin]; [now left|].
          right. left. destruct (Hcs c Hin) as [k [_ Hsrc']]. now symmetry.
        * right. now right. }
  destruct (Hgen pdf_paths [] chunks Hloop Hstems) as [Hnodup Hsrc].
  - constructor.
  - intros c [].
  - split; [exact Hnodup|]. apply Forall_forall. intros c Hc.
    destruct (Hsrc c Hc) as [[]|Hin]. exact Hin.
Qed.

Lemma run_chunk_ids_distinct_witness :
  NoDup (map chunk_id [make_chunk (lit "b_sound") 1 (lit "EN: intro")]) /\
  Forall (fun c => In (source c) (map stem [sound]))
         [make_chunk (lit "b_sound") 1 (lit "EN: intro")].
Proof.
  apply (run_chunk_ids_distinct detect_words whole_splitter extract_or_fail [sound]).
  - reflexivity.
  - repeat constructor. intros [].
Defined.

(** X13. Every chunk has a text without white space at either end, a
    [length] that is the number of characters of that text, the source name
    and the language tag ["hi-en"]; when the documents of the splitter are
    at most [limit] characters long, so is every chunk. *)
Theorem chunk_fields
    (create_documents : list str -> list str) (pairs : list Pair)
    (source_name : str) (limit : nat) (c : Chunk) :
  (forall d, In d (create_documents (formatted_blocks pairs)) ->
             List.length d <= limit) ->
  In c (create_bilingual_chunks create_documents pairs source_name) ->
  strip (chunk_text c) = chunk_text c /\
  chunk_length c = List.length (chunk_text c) /\
  chunk_length c <= limit /\
  source c = source_name /\
  language c = lit "hi-en".
Proof.
  intros Hlimit Hc. apply create_bilingual_chunks_In in Hc.
  destruct Hc as [d [k [Hd ->]]]. cbn [make_chunk chunk_text chunk_length source language].
  repeat split; [apply strip_idempotent|].
  pose proof (strip_length d). pose proof (Hlimit d Hd). lia.
Qed.

Lemma chunk_fields_witness :
  strip (chunk_text (make_chunk (lit "doc") 1 (lit " EN: intro "))) 
  = chunk_text (make_chunk (lit "doc") 1 (lit " EN: intro ")) /\
  chunk_length (make_chunk (lit "doc") 1 (lit " EN: intro ")) <= 800.
Proof.
  destruct (chunk_fields (fun _ => [lit " EN: intro "])
              [(lit "intro", [], mkMeta (Some 1%Z) None)] (lit "doc") 800
              (make_chunk (lit "doc") 1 (lit " EN: intro "))) as [H1 [_ [H2 _]]].
  - intros d [<- | []]. cbn. lia.
  - left. reflexivity.
  - now split.
Defined.

(** ** The records of the lexicon *)

Lemma canonical_text_stripped (entry : Entry) :
  canonical_text entry <> [] /\ strip (canonical_text entry) = canonical_text entry.
Proof.
  unfold canonical_text. split; [|apply strip_idempotent].
  apply strip_nonblank. exists 40%N. split; [|reflexivity].
  apply in_or_app. right. cbn. right. now left.
Qed.

(** X14. [load_cultural_semantics] returns no record when the file or its
    key ["entries"] is missing and otherwise one record per entry, in order
    and with the identifier of the entry; the text of every record is not
    empty and has no white space at either end, whatever the entry lacks,
    and the source of every record is ["cultural_semantics"]. *)
Theorem load_cultural_semantics_records
    (file : option (option (list LexiconEntry))) :
  (file = None \/ file = Some None -> load_cultural_semantics file = []) /\
  (forall entries,
      file = Some (Some entries) ->
      map record_id (load_cultural_semantics file) = map entry_id entries /\
      map record_text (load_cultural_semantics file)
      = map (fun e => canonical_text (entry_texts e)) entries) /\
  (forall r,
      In r (load_cultural_semantics file) ->
      record_text r <> [] /\
      strip (record_text r) = record_text r /\
      md_source (record_metadata r) = lit "cultural_semantics").
Proof.
  split; [|split].
  - intros [-> | ->]; reflexivity.
  - intros entries ->. cbn [load_cultural_semantics get].
    rewrite !map_map. split; reflexivity.
  - intros r Hr. destruct file as [[entries|]|]; try contradiction.
    cbn [load_cultural_semantics get] in Hr. apply in_map_iff in Hr.
    destruct Hr as [e [<- _]]. cbn [make_record record_text record_metadata md_source].
    destruct (canonical_text_stripped (entry_texts e)) as [H1 H2].
    now repeat split.
Qed.

Lemma load_cultural_semantics_records_witness :
  load_cultural_semantics (Some None) = [] /\
  record_text (make_record (mkLexiconEntry empty_entry None None None None None))
  <> [].
Proof.
  destruct (load_cultural_semantics_records (Some None)) as [H1 _].
  destruct (load_cultural_semantics_records
              (Some (Some [mkLexiconEntry empty_entry None None None None None])))
    as [_ [_ H3]].
  split; [apply H1; now right|].
  apply (H3 (make_record (mkLexiconEntry empty_entry None None None None None))).
  left. reflexivity.
Defined.

(** ** Blank documents and whole blocks *)

Lemma filter_none {A : Type} (f : A -> bool) (l : list A) :
  Forall (fun x => f x = false) l -> filter f l = [].
Proof.
  induction 1 as [|x l Hx _ IH]; [reflexivity|]. cbn. now rewrite Hx.
Qed.

(** X15. A file in which no span has a visible text gives no span, no pair
    and no chunk; the splitter is not called for it and the run goes on
    with the next file as if the file were not there. *)
Theorem blank_document_gives_no_chunk
    (fitz_open : PdfPath -> outcome (list PageDict))
    (detect : str -> outcome str) (create_documents : list str -> list str)
    (pdf_path : PdfPath) (doc : list PageDict) :
  fitz_open pdf_path = Returns doc ->
  Forall (fun span => visible span = false) (doc_raw_spans doc) ->
  extract_blocks fitz_open pdf_path = Returns [] /\
  document_chunks detect create_documents (extract_blocks fitz_open) pdf_path
  = Returns [] /\
  (forall all_chunks rest,
      process_loop detect create_documents (extract_blocks fitz_open)
                   all_chunks (pdf_path :: rest)
      = process_loop detect create_documents (extract_blocks fitz_open)
                     all_chunks rest).
Proof.
  intros Hdoc Hblank.
  assert (Hextract : extract_blocks fitz_open pdf_path = Returns []).
  { unfold extract_blocks. rewrite Hdoc. cbn [bind].
    assert (Hread : Forall readable (doc_raw_spans doc)).
    { eapply Forall_impl; [|exact Hblank]. intros span Hs Hv. congruence. }
    apply (collect_pages_returns doc 1) in Hread. destruct Hread as [l Hl].
    rewrite Hl. cbn [bind].
    pose proof (collect_pages_texts doc 1 l Hl) as Htexts.
    rewrite (filter_none visible _ Hblank) in Htexts.
    apply map_eq_nil in Htexts. now subst l. }
  assert (Hchunks :
    document_chunks detect create_documents (extract_blocks fitz_open) pdf_path
    = Returns []).
  { unfold document_chunks. now rewrite Hextract. }
  repeat split; trivial.
  intros all_chunks rest. rewrite process_loop_cons, Hchunks. cbn [bind].
  now rewrite app_nil_r.
Qed.

Lemma blank_document_gives_no_chunk_witness :
  extract_blocks (fun _ => Returns blank_doc) sound = Returns [].
Proof.
  refine (proj1 (blank_document_gives_no_chunk
                   (fun _ => Returns blank_doc) detect_words whole_splitter
                   sound blank_doc eq_refl _)).
  repeat constructor.
Defined.

Lemma lstrip_suffix (s : str) : exists w, s = w ++ lstrip s.
Proof.
  induction s as [|c s [w IH]]; [now exists []|]. simpl.
  destruct (is_space c); [|now exists []].
  exists (c :: w). cbn. now rewrite <- IH.
Qed.

Lemma strip_inside (s : str) : exists pre post, s = pre ++ strip s ++ post.
Proof.
  unfold strip, rstrip.
  destruct (lstrip_suffix s) as [w1 H1].
  destruct (lstrip_suffix (rev (lstrip s))) as [w2 H2].
  exists w1, (rev w2).
  rewrite <- rev_app_distr, <- H2, rev_involutive. exact H1.
Qed.

Lemma is_substring_strip (sub s : str) :
  is_substring sub (strip s) -> is_substring sub s.
Proof.
  intros [pre [post H]]. destruct (strip_inside s) as [a [b Hs]].
  exists (a ++ pre), (post ++ b). rewrite Hs at 1. rewrite H.
  now rewrite <- !app_assoc.
Qed.

(** X16. When the splitter hands a formatted block back whole, the chunk
    made of it is ["perfect"] if the pair has both texts, and ["partial"]
    if the pair has one text only, unless that text itself contains the
    marker of the other language. *)
Theorem whole_block_status
    (source_name : str) (i : nat) (e h : str) (m : Meta) (blk : str) :
  format_block (e, h, m) = Some blk ->
  (e <> [] -> h <> [] ->
   alignment_status (make_chunk source_name i blk) = lit "perfect") /\
  (h = [] -> ~ is_substring (lit "HI:") e ->
   alignment_status (make_chunk source_name i blk) = lit "partial") /\
  (e = [] -> ~ is_substring (lit "EN:") h ->
   alignment_status (make_chunk source_name i blk) = lit "partial").
Proof.
  intros Hblk. split; [|split].
  - intros He Hh. destruct e as [|c e]; [now elim He|].
    destruct h as [|d h]; [now elim Hh|].
    cbn in Hblk. injection Hblk as <-.
    apply (proj1 (make_chunk_status source_name i _)).
    cbn [make_chunk chunk_text].
    match goal with
    | |- context [strip ?blk] =>
        assert (Hstrip :
          strip blk
          = 69%N :: (78%N :: 58%N :: 32%N :: c :: e ++ [10%N; 72%N; 73%N])
              ++ 58%N :: rstrip (32%N :: d :: h))
    end.
    { transitivity
        (strip ([] ++ 69%N :: (78%N :: 58%N :: 32%N :: c :: e ++ [10%N; 72%N; 73%N])
                   ++ 58%N :: 32%N :: d :: h)).
      - f_equal. cbn. do 5 f_equal. now rewrite <- app_assoc.
      - now rewrite strip_between. }
    rewrite Hstrip. split.
    + exists [], (32%N :: c :: e ++ [10%N; 72%N; 73%N] ++ 58%N :: rstrip (32%N :: d :: h)).
      cbn. do 5 f_equal. now rewrite <- !app_assoc.
    + exists (69%N :: 78%N :: 58%N :: 32%N :: c :: e ++ [10%N]), (rstrip (32%N :: d :: h)).
      cbn. do 5 f_equal. now rewrite <- !app_assoc.
  - intros -> Hnot. destruct e as [|c e]; [discriminate|].
    cbn in Hblk. injection Hblk as <-.
    apply (proj2 (make_chunk_status source_name i _)).
    cbn [make_chunk chunk_text]. intros [_ H]. apply Hnot.
    apply is_substring_strip in H. apply contains_spec in H.
    apply contains_spec. exact H.
  - intros -> Hnot. destruct h as [|d h]; [discriminate|].
    cbn in Hblk. injection Hblk as <-.
    apply (proj2 (make_chunk_status source_name i _)).
    cbn [make_chunk chunk_text]. intros [H _]. apply Hnot.
    apply is_substring_strip in H. apply contains_spec in H.
    apply contains_spec. exact H.
Qed.

Lemma whole_block_status_witness :
  alignment_status
    (make_chunk (lit "doc") 1 (lit "EN: intro" ++ newline ++ lit "HI: " ++ parichay))
  = lit "perfect".
Proof.
  apply (proj1 (whole_block_status (lit "doc") 1 (lit "intro") parichay
                  (mkMeta (Some 1%Z) (Some 1%Z)) _ eq_refl));
    discriminate.
Defined.


(** ** Character windows *)

Lemma slice_inside (s : str) (start stop : Z) :
  exists pre post, s = pre ++ slice s start stop ++ post.
Proof.
  unfold slice.
  set (lo := Z.to_nat (slice_index (Z.of_nat (List.length s)) start)).
  set (n := Z.to_nat _).
  exists (firstn lo s), (skipn n (skipn lo s)).
  now rewrite (firstn_skipn n (skipn lo s)), (firstn_skipn lo s).
Qed.

Lemma slice_length (s : str) (start size : Z) :
  (0 <= start)%Z -> (0 <= size)%Z ->
  (Z.of_nat (List.length (slice s start (start + size))) <= size)%Z.
Proof.
  intros Hstart Hsize. unfold slice, slice_index.
  destruct (Z.ltb_spec start 0) as [H|_]; [lia|].
  destruct (Z.ltb_spec (start + size) 0) as [H|_]; [lia|].
  pose proof (firstn_le_length
                (Z.to_nat (Z.min (start + size) (Z.of_nat (List.length s))
                           - Z.min start (Z.of_nat (List.length s))))
                (skipn (Z.to_nat (Z.min start (Z.of_nat (List.length s)))) s)).
  lia.
Qed.

Lemma window_inside (t : str) (chunk_size start : Z) :
  is_substring (window t chunk_size start) t.
Proof.
  unfold window.
  destruct (slice_inside t start (start + chunk_size)) as [a [b H]].
  destruct (strip_inside (slice t start (start + chunk_size))) as [c [d H']].
  exists (a ++ c), (d ++ b). rewrite H at 1. rewrite H' at 1.
  now rewrite <- !app_assoc.
Qed.

Lemma is_substring_length (sub s : str) :
  is_substring sub s -> List.length sub <= List.length s.
Proof. intros [pre [post ->]]. rewrite !length_app. lia. Qed.

Section ChunkText.

Variable t : str.
Variable chunk_size overlap : Z.

Lemma chunk_text_loop_more_fuel (fuel : nat) :
  forall (start : Z) (chunks result : list str),
    Clean.chunk_text_loop fuel t chunk_size overlap start chunks = Some result ->
    Clean.chunk_text_loop (S fuel) t chunk_size overlap start chunks = Some result.
Proof.
  induction fuel as [|fuel IH]; intros start chunks result H; [discriminate|].
  cbn [Clean.chunk_text_loop] in H. cbn [Clean.chunk_text_loop].
  destruct (start <? Z.of_nat (List.length t))%Z; [|exact H].
  apply IH in H. exact H.
Qed.

Lemma chunk_text_loop_fuel_le (fuel fuel' : nat) (start : Z)
    (chunks result : list str) :
  fuel <= fuel' ->
  Clean.chunk_text_loop fuel t chunk_size overlap start chunks = Some result ->
  Clean.chunk_text_loop fuel' t chunk_size overlap start chunks = Some result.
Proof.
  induction 1 as [|fuel' _ IH]; intros H; [exact H|].
  now apply chunk_text_loop_more_fuel, IH.
Qed.

Hypothesis step_positive : (overlap < chunk_size)%Z.

Lemma chunk_text_loop_returns (fuel : nat) :
  forall (start : Z) (chunks : list str),
    (0 <= start)%Z ->
    Z.to_nat (Z.of_nat (List.length t) - start) < fuel ->
    exists more,
      Clean.chunk_text_loop fuel t chunk_size overlap start chunks = Some (chunks ++ more) /\
      Forall (fun c => exists s, (0 <= s)%Z /\ c = window t chunk_size s) more /\
      ((0 <= overlap)%Z ->
       forall i, (start <= i < Z.of_nat (List.length t))%Z ->
                 exists s, (s <= i < s + chunk_size)%Z /\
                           In (window t chunk_size s) more).
Proof.
  induction fuel as [|fuel IH]; intros start chunks Hstart Hfuel; [lia|].
  cbn [Clean.chunk_text_loop].
  destruct (Z.ltb_spec start (Z.of_nat (List.length t))) as [Hlt|Hge].
  - destruct (IH (start + (chunk_size - overlap))%Z
                 (chunks ++ [strip (slice t start (start + chunk_size))]))
      as [more [Hrun [Hwin Hcover]]]; [lia | lia |].
    exists (window t chunk_size start :: more). split; [|split].
    + rewrite Hrun. now rewrite <- app_assoc.
    + constructor; [|exact Hwin]. now exists start.
    + intros Hov i Hi.
      destruct (Z.ltb_spec i (start + (chunk_size - overlap))) as [Hin|Hout].
      * exists start. split; [lia | now left].
      * destruct (Hcover Hov i) as [s [Hs Hin]]; [lia|].
        exists s. split; [exact Hs | now right].
  - exists []. rewrite app_nil_r. split; [reflexivity|]. split; [constructor|].
    intros _ i Hi. lia.
Qed.

End ChunkText.

(** X17. When [overlap < chunk_size], [chunk_text] returns: any number of
    iterations above the length of the text reaches the end of the loop,
    with the same chunks. Every chunk has more than 50 characters, no white
    space at either end and is a piece of the text; when [chunk_size] is
    not negative no chunk is longer than [chunk_size]; and a text of at
    most 50 characters gives no chunk at all. *)
Theorem chunk_text_returns (t : str) (chunk_size overlap : Z) :
  (overlap < chunk_size)%Z ->
  exists chunks,
    (forall fuel, List.length t < fuel ->
                  Clean.chunk_text fuel t chunk_size overlap = Some chunks) /\
    Forall (fun c => 50 < List.length c /\ strip c = c /\ is_substring c t) chunks /\
    ((0 <= chunk_size)%Z ->
     Forall (fun c => (Z.of_nat (List.length c) <= chunk_size)%Z) chunks) /\
    (List.length t <= 50 -> chunks = []).
Proof.
  intros Hstep.
  destruct (chunk_text_loop_returns t chunk_size overlap Hstep
              (S (List.length t)) 0%Z []) as [raw [Hrun [Hwin _]]]; [lia | lia |].
  cbn [app] in Hrun.
  exists (filter (fun c => 50 <? List.length c) raw).
  assert (Hkeep : forall c, In c (filter (fun c => 50 <? List.length c) raw) ->
                  50 < List.length c /\
                  exists s, (0 <= s)%Z /\ c = window t chunk_size s).
  { intros c Hc. apply filter_In in Hc. destruct Hc as [Hin Hlen].
    split; [now apply Nat.ltb_lt|].
    apply (proj1 (Forall_forall _ raw) Hwin c Hin). }
  split; [|split; [|split]].
  - intros fuel Hfuel. unfold Clean.chunk_text.
    rewrite (chunk_text_loop_fuel_le t chunk_size overlap
               (S (List.length t)) fuel 0%Z [] raw); [reflexivity | lia | exact Hrun].
  - apply Forall_forall. intros c Hc. destruct (Hkeep c Hc) as [Hlen [s [_ ->]]].
    split; [exact Hlen|]. split; [apply strip_idempotent | apply window_inside].
  - intros Hsize. apply Forall_forall. intros c Hc.
    destruct (Hkeep c Hc) as [_ [s [Hs ->]]]. unfold window.
    pose proof (strip_length (slice t s (s + chunk_size))).
    pose proof (slice_length t s chunk_size Hs Hsize). lia.
  - intros Hshort.
    destruct (filter (fun c => 50 <? List.length c) raw) as [|c l] eqn:E;
      [reflexivity|].
    destruct (Hkeep c (or_introl eq_refl)) as [Hlen [s [_ Hc]]].
    pose proof (is_substring_length c t) as Hsub.
    rewrite Hc in Hsub at 1. specialize (Hsub (window_inside t chunk_size s)).
    lia.
Qed.

Lemma chunk_text_returns_witness :
  exists chunks,
    (forall fuel, List.length (lit "short text") < fuel ->
                  Clean.chunk_text fuel (lit "short text") 600 100 = Some chunks) /\
    Forall (fun c => 50 < List.length c /\ strip c = c /\
                     is_substring c (lit "short text")) chunks /\
    ((0 <= 600)%Z ->
     Forall (fun c => (Z.of_nat (List.length c) <= 600)%Z) chunks) /\
    (List.length (lit "short text") <= 50 -> chunks = []).
Proof.
  apply (chunk_text_returns (lit "short text") 600 100). lia.
Defined.

(** X18. When [chunk_size <= overlap] the loop of [chunk_text] never ends
    on a text that is not empty: no number of iterations gives a result. *)
Theorem chunk_text_diverges (t : str) (chunk_size overlap : Z) :
  (chunk_size <= overlap)%Z ->
  t <> [] ->
  forall fuel, Clean.chunk_text fuel t chunk_size overlap = None.
Proof.
  intros Hstep Ht fuel. unfold Clean.chunk_text.
  assert (Hloop : forall fuel start chunks,
            (start <= 0)%Z ->
            Clean.chunk_text_loop fuel t chunk_size overlap start chunks = None).
  { clear fuel. induction fuel as [|fuel IH]; intros start chunks Hstart;
      [reflexivity|].
    cbn [Clean.chunk_text_loop].
    destruct (Z.ltb_spec start (Z.of_nat (List.length t))) as [_|Hge].
    - apply IH. lia.
    - destruct t; [now elim Ht | cbn [List.length] in Hge; lia]. }
  now rewrite Hloop.
Qed.

Lemma chunk_text_diverges_witness :
  Clean.chunk_text 1000 (lit "short text") 100 100 = None.
Proof.
  apply (chunk_text_diverges (lit "short text") 100 100); [lia | discriminate].
Defined.

(** X19. When [0 <= overlap < chunk_size] the windows that the loop of
    [chunk_text] appends cover the text: every position of the text lies in
    a window of [chunk_size] characters whose stripped content the loop
    appends to [chunks], before the short chunks are filtered out. *)
Theorem chunk_text_windows_cover (t : str) (chunk_size overlap : Z) :
  (0 <= overlap < chunk_size)%Z ->
  exists raw,
    (forall fuel, List.length t < fuel ->
                  Clean.chunk_text_loop fuel t chunk_size overlap 0 [] = Some raw) /\
    (forall i, (0 <= i < Z.of_nat (List.length t))%Z ->
               exists s, (s <= i < s + chunk_size)%Z /\
                         In (window t chunk_size s) raw).
Proof.
  intros [Hov Hstep].
  destruct (chunk_text_loop_returns t chunk_size overlap Hstep
              (S (List.length t)) 0%Z []) as [raw [Hrun [_ Hcover]]]; [lia | lia |].
  cbn [app] in Hrun. exists raw. split.
  - intros fuel Hfuel.
    apply (chunk_text_loop_fuel_le t chunk_size overlap (S (List.length t)) fuel);
      [lia | exact Hrun].
  - intros i Hi. now apply Hcover.
Qed.

Lemma chunk_text_windows_cover_witness :
  exists raw,
    (forall fuel, List.length (lit "short text") < fuel ->
                  Clean.chunk_text_loop fuel (lit "short text") 600 100 0 [] = Some raw) /\
    (forall i, (0 <= i < Z.of_nat (List.length (lit "short text")))%Z ->
               exists s, (s <= i < s + 600)%Z /\
                         In (window (lit "short text") 600 s) raw).
Proof.
  apply (chunk_text_windows_cover (lit "short text") 600 100). lia.
Defined.
